(** * gitticketstat: the commit-to-ticket aggregation of [index.js]

    A shallow embedding of [analyzeCommits] (index.js, lines 24-72) and of
    the part of the JavaScript regular-expression machinery it relies on
    ([new RegExp(pattern, 'g')] and [String.prototype.match]).

    Numbers are modelled as [Z]: the counts produced by the numstat parser
    are integers, and JavaScript's doubles add integers exactly below 2^53.
    Strings are sequences of 8-bit characters: messages and patterns are
    taken to be ASCII text.  The properties of the aggregation itself are
    stated for an arbitrary matcher and do not depend on this. *)

From Stdlib Require Import ZArith String Ascii List Lia Bool DecimalString.
From stdpp Require Import base option list.
Import ListNotations.

Local Open Scope Z_scope.

(** ** Regular expressions

    The subset of the JavaScript pattern syntax that the default ticket
    pattern and patterns like it are written in: a sequence of atoms
    (a literal character, [.], [\d], [\w], an escaped punctuation character,
    or a bracketed class with ranges and an optional leading [^]), each
    followed by at most one of the greedy quantifiers [+], [*], [?].
    Groups, alternation, anchors and braces are outside the subset. *)

Module RegExp.

Inductive classItem : Type :=
| CChar (c : ascii)
| CRange (lo hi : ascii)
| CDigit
| CWord.

Inductive atom : Type :=
| AChar (c : ascii)
| AAny
| AClass (negated : bool) (items : list classItem).

Inductive quant : Type := QOne | QPlus | QStar | QOpt.

Definition regex : Type := list (atom * quant).

Definition code (c : ascii) : nat := nat_of_ascii c.

Definition between (lo hi c : ascii) : bool :=
  (code lo <=? code c)%nat && (code c <=? code hi)%nat.

Definition isDigit (c : ascii) : bool := between "0" "9" c.

Definition isWord (c : ascii) : bool :=
  between "a" "z" c || between "A" "Z" c || isDigit c || Ascii.eqb c "_".

(** Line terminators, which [.] does not match. *)
Definition isLineTerminator (c : ascii) : bool :=
  (code c =? 10)%nat || (code c =? 13)%nat.

Definition itemMatches (i : classItem) (c : ascii) : bool :=
  match i with
  | CChar d => Ascii.eqb c d
  | CRange lo hi => between lo hi c
  | CDigit => isDigit c
  | CWord => isWord c
  end.

Definition atomMatches (a : atom) (c : ascii) : bool :=
  match a with
  | AChar d => Ascii.eqb c d
  | AAny => negb (isLineTerminator c)
  | AClass negated items =>
      xorb negated (existsb (fun i => itemMatches i c) items)
  end.

(** *** Parsing a pattern ([new RegExp(pattern, 'g')])

    [None] says that the pattern is not in the modelled subset: the
    constructor may throw a [SyntaxError] for it or compile it to something
    the model does not describe.  A pattern that parses is one the
    constructor compiles, with the meaning given by [matchItems]. *)

(** The characters that may follow a backslash to stand for themselves. *)
Definition isSyntaxChar (c : ascii) : bool :=
  existsb (Ascii.eqb c)
    ["^"; "$"; "\"; "."; "*"; "+"; "?"; "("; ")"; "["; "]"; "{"; "}"; "|";
     "/"; "-"]%char.

(** One member of a bracketed class that starts with a backslash. *)
Definition classEscape (c : ascii) : option classItem :=
  if Ascii.eqb c "d" then Some CDigit
  else if Ascii.eqb c "w" then Some CWord
  else if isSyntaxChar c then Some (CChar c)
  else None.

(** One member of a class: a plain character or an escape. *)
Definition classAtom (s : list ascii) : option (classItem * list ascii) :=
  match s with
  | [] => None
  | "\"%char :: c :: rest => i ← classEscape c; Some (i, rest)
  | "\"%char :: [] => None
  | c :: rest => Some (CChar c, rest)
  end.

(** The members of a class, up to the closing bracket; the result also
    carries the rest of the pattern after the bracket.  A hyphen between
    two members makes a range, which must be in order; a range one end of
    which is [\d] or [\w] is outside the subset.  A hyphen just before
    the closing bracket stands for itself. *)
Fixpoint parseClass (fuel : nat) (s : list ascii)
  : option (list classItem * list ascii) :=
  match fuel with
  | O => None
  | S fuel =>
      match s with
      | [] => None
      | "]"%char :: rest => Some ([], rest)
      | _ =>
          '(lo, afterLo) ← classAtom s;
          match afterLo with
          | "-"%char :: "]"%char :: _ =>
              '(items, rest') ← parseClass fuel afterLo;
              Some (lo :: items, rest')
          | "-"%char :: afterDash =>
              '(hi, afterHi) ← classAtom afterDash;
              match lo, hi with
              | CChar a, CChar b =>
                  if (code a <=? code b)%nat then
                    '(items, rest') ← parseClass fuel afterHi;
                    Some (CRange a b :: items, rest')
                  else None
              | _, _ => None
              end
          | _ =>
              '(items, rest') ← parseClass fuel afterLo;
              Some (lo :: items, rest')
          end
      end
  end.

Definition parseQuant (s : list ascii) : quant * list ascii :=
  match s with
  | "+"%char :: rest => (QPlus, rest)
  | "*"%char :: rest => (QStar, rest)
  | "?"%char :: rest => (QOpt, rest)
  | _ => (QOne, s)
  end.

Definition parseAtom (s : list ascii) : option (atom * list ascii) :=
  match s with
  | [] => None
  | "\"%char :: c :: rest =>
      if Ascii.eqb c "d" then Some (AClass false [CDigit], rest)
      else if Ascii.eqb c "w" then Some (AClass false [CWord], rest)
      else if isSyntaxChar c then Some (AChar c, rest)
      else None
  | "."%char :: rest => Some (AAny, rest)
  | "["%char :: "^"%char :: rest =>
      '(items, rest') ← parseClass (S (length rest)) rest;
      Some (AClass true items, rest')
  | "["%char :: rest =>
      '(items, rest') ← parseClass (S (length rest)) rest;
      Some (AClass false items, rest')
  | c :: rest =>
      if isSyntaxChar c && negb (Ascii.eqb c "-") && negb (Ascii.eqb c "/")
      then None
      else Some (AChar c, rest)
  end.

Fixpoint parseItems (fuel : nat) (s : list ascii) : option regex :=
  match s with
  | [] => Some []
  | _ =>
      match fuel with
      | O => None
      | S fuel =>
          '(a, rest) ← parseAtom s;
          let '(q, rest') := parseQuant rest in
          (* a quantifier may not follow a quantifier other than as the
             lazy marker, which is outside the subset *)
          match rest' with
          | "+"%char :: _ | "*"%char :: _ | "?"%char :: _ => None
          | _ =>
              items ← parseItems fuel rest';
              Some ((a, q) :: items)
          end
      end
  end.

(** [new RegExp(pattern, 'g')] *)
Definition create (pattern : string) : option regex :=
  let s := list_ascii_of_string pattern in
  parseItems (length s) s.

(** *** Matching

    The backtracking matcher of the specification, specialised to the
    subset: [matchItems r s] is the length of the match of [r] at the
    start of [s], if there is one; the quantifiers are greedy. *)

(** [matchStar a k s]: as many characters matching [a] as possible, then
    the continuation [k]; gives back characters one by one while [k]
    fails. *)
Fixpoint matchStar (a : atom) (k : list ascii -> option nat)
    (s : list ascii) : option nat :=
  match s with
  | c :: s' =>
      if atomMatches a c then
        match matchStar a k s' with
        | Some n => Some (S n)
        | None => k s
        end
      else k s
  | [] => k s
  end.

Definition matchOne (a : atom) (k : list ascii -> option nat)
    (s : list ascii) : option nat :=
  match s with
  | c :: s' => if atomMatches a c then S <$> k s' else None
  | [] => None
  end.

Fixpoint matchItems (r : regex) (s : list ascii) : option nat :=
  match r with
  | [] => Some O
  | (a, q) :: r' =>
      let k := matchItems r' in
      match q with
      | QOne => matchOne a k s
      | QPlus =>
          match s with
          | c :: s' => if atomMatches a c then S <$> matchStar a k s' else None
          | [] => None
          end
      | QStar => matchStar a k s
      | QOpt =>
          match matchOne a k s with
          | Some n => Some n
          | None => k s
          end
      end
  end.

(** *** [String.prototype.match] with a global regular expression

    [lastIndex] starts at 0; every round searches the first position at
    or after [lastIndex] where the pattern matches, records the matched
    substring and moves [lastIndex] to the end of the match, or one
    further when the match is empty.  [scan r skip s] walks the positions
    of the subject; [skip] is the number of positions still covered by
    the previous match. *)
Fixpoint scan (r : regex) (skip : nat) (s : list ascii) : list string :=
  match skip with
  | S skip' =>
      match s with
      | _ :: s' => scan r skip' s'
      | [] => []
      end
  | O =>
      match matchItems r s with
      | Some n =>
          string_of_list_ascii (take n s) ::
            match s with
            | _ :: s' => scan r (pred n) s'
            | [] => []
            end
      | None =>
          match s with
          | _ :: s' => scan r O s'
          | [] => []
          end
      end
  end.

(** [message.match(re)]: [null] when there is no match at all, otherwise
    the array of all matched substrings.  The subject is read one 8-bit
    character at a time, which is how the engine reads an ASCII message. *)
Definition match_ (r : regex) (message : string) : option (list string) :=
  match scan r O (list_ascii_of_string message) with
  | [] => None
  | ms => Some ms
  end.

End RegExp.

Local Open Scope string_scope.

Definition defaultTicketPattern : string := "[A-Z]+-\d+".

(** ** Data model *)

(** One entry of [commit.stat]: the added and deleted line counts of one
    file, as produced by the numstat parser. *)
Record FileStat : Type := mkFileStat {
  fs_added : Z;
  fs_deleted : Z
}.

Record Commit : Type := mkCommit {
  message : string;
  stat : list FileStat
}.

(** The accumulator of [statReducer].  The seed object carries [total: 0];
    the objects the reducer returns have no [total] property. *)
Record ShortStat : Type := mkShortStat {
  ss_added : Z;
  ss_deleted : Z;
  ss_total : option Z
}.

Record TicketStat : Type := mkTicketStat {
  ticket : string;
  added : Z;
  deleted : Z;
  total : Z;
  commits : Z
}.

(** ** The aggregation, as a function on values

    [Array.prototype.find] followed by the in-place update of the object it
    returns is modelled by [updateFirst]; the model with an explicit store,
    in which the objects are shared by reference, is [Heap] below. *)

Section Aggregation.

(** [message.match(ticketRegExp)] for the compiled pattern. *)
Variable ticketRegExp : string -> option (list string).

Definition statReducer (commitStatAccumulator : ShortStat) (st : FileStat)
  : ShortStat :=
  {| ss_added := fs_added st + ss_added commitStatAccumulator;
     ss_deleted := fs_deleted st + ss_deleted commitStatAccumulator;
     ss_total := None |}.

Definition shortStat (commit : Commit) : ShortStat :=
  fold_left statReducer (stat commit)
    {| ss_added := 0; ss_deleted := 0; ss_total := Some 0 |}.

(** [commit.message.match(ticketRegExp) || []] *)
Definition ticketsMatchedInCommit (commit : Commit) : list string :=
  match ticketRegExp (message commit) with
  | Some ms => ms
  | None => []
  end.

Definition isTicket (t : string) (ticketStat : TicketStat) : bool :=
  String.eqb (ticket ticketStat) t.

(** The four compound assignments on the found object. *)
Definition bump (ss : ShortStat) (e : TicketStat) : TicketStat :=
  {| ticket := ticket e;
     added := added e + ss_added ss;
     deleted := deleted e + ss_deleted ss;
     total := total e + (ss_added ss + ss_deleted ss);
     commits := commits e + 1 |}.

Definition newTicketStat (ss : ShortStat) (t : string) : TicketStat :=
  {| ticket := t;
     added := ss_added ss;
     deleted := ss_deleted ss;
     total := ss_added ss + ss_deleted ss;
     commits := 1 |}.

(** Replace the first element satisfying [p] by its image under [f]. *)
Fixpoint updateFirst (p : TicketStat -> bool) (f : TicketStat -> TicketStat)
    (l : list TicketStat) : list TicketStat :=
  match l with
  | [] => []
  | e :: l' => if p e then f e :: l' else e :: updateFirst p f l'
  end.

(** The body of the [forEach] callback. *)
Definition ticketStep (ss : ShortStat) (ticketStatAccumulator : list TicketStat)
    (t : string) : list TicketStat :=
  match List.find (isTicket t) ticketStatAccumulator with
  | Some _ => updateFirst (isTicket t) (bump ss) ticketStatAccumulator
  | None => ticketStatAccumulator ++ [newTicketStat ss t]
  end.

Definition commitReducer (ticketStatAccumulator : list TicketStat)
    (commit : Commit) : list TicketStat :=
  fold_left (ticketStep (shortStat commit)) (ticketsMatchedInCommit commit)
    ticketStatAccumulator.

(** [commits.reduce(commitReducer, [])] *)
Definition reduceCommits (cs : list Commit) : list TicketStat :=
  fold_left commitReducer cs [].

End Aggregation.

(** The outcome of a call that may throw.  [OutsideSubset] is the answer
    of the model for a pattern it does not describe. *)
Inductive outcome (A : Type) : Type :=
| Returned (a : A)
| SyntaxError
| OutsideSubset.
Arguments Returned {A} a.
Arguments SyntaxError {A}.
Arguments OutsideSubset {A}.

(** [analyzeCommits] for the patterns of the modelled subset. *)
Definition analyzeCommits (cs : list Commit) (ticketPattern : string)
  : outcome (list TicketStat) :=
  match RegExp.create ticketPattern with
  | None => OutsideSubset
  | Some re => Returned (reduceCommits (RegExp.match_ re) cs)
  end.

(** [analyzeCommits] for any engine: [newRegExp pattern] is the matcher of
    the regular expression that [new RegExp(pattern, 'g')] returns, or
    [None] when the constructor throws. *)
Definition analyzeCommitsWith
    (newRegExp : string -> option (string -> option (list string)))
    (cs : list Commit) (ticketPattern : string) : outcome (list TicketStat) :=
  match newRegExp ticketPattern with
  | None => SyntaxError
  | Some ticketRegExp => Returned (reduceCommits ticketRegExp cs)
  end.

(** ** The aggregation on a store

    The same code with its objects in a store: the input array, the commit
    records, their [stat] arrays and file entries are objects the caller
    owns; the accumulator array and the ticket records are allocated by the
    call and updated in place.  A location is an index into the store;
    allocation appends.  [None] stands for a run on a store that does not
    hold the kinds of objects the code expects (a dangling reference, or a
    commit that is not a commit record).

    The objects that the call creates and drops again (the seed and the
    results of [statReducer], the array of matches, the callbacks) are
    kept as values: no reference to them is stored anywhere, so they can
    neither alias the input nor the result.  The store therefore says
    which objects the input and the result consist of, not how much the
    call allocates. *)

Module Heap.

Abbreviation loc := nat (only parsing).

Inductive object : Type :=
| OFileStat (a d : Z)
| OCommit (msg : string) (statLoc : loc)
| OArray (elems : list loc)
| OTicketStat (e : TicketStat).

Abbreviation heap := (list object) (only parsing).

Definition M (A : Type) : Type := heap -> option (A * heap).

Definition ret {A : Type} (a : A) : M A := fun h => Some (a, h).

Definition bind {A B : Type} (m : M A) (f : A -> M B) : M B :=
  fun h => match m h with
           | Some (a, h') => f a h'
           | None => None
           end.

Definition throw {A : Type} : M A := fun _ => None.

Notation "x <~ m ;; k" := (bind m (fun x => k))
  (at level 100, m at next level, right associativity).
Notation "m ;;; k" := (bind m (fun _ => k))
  (at level 100, right associativity).

Definition alloc (o : object) : M loc :=
  fun h => Some (length h, (h ++ [o])%list).

Definition load (l : loc) : M object :=
  fun h => match h !! l with
           | Some o => Some (o, h)
           | None => None
           end.

Definition store (l : loc) (o : object) : M unit :=
  fun h => if (l <? length h)%nat then Some (tt, <[l := o]> h) else None.

Definition loadArray (l : loc) : M (list loc) :=
  o <~ load l ;;
  match o with OArray es => ret es | _ => throw end.

Definition loadCommit (l : loc) : M (string * loc) :=
  o <~ load l ;;
  match o with OCommit msg sl => ret (msg, sl) | _ => throw end.

Definition loadFileStat (l : loc) : M FileStat :=
  o <~ load l ;;
  match o with OFileStat a d => ret (mkFileStat a d) | _ => throw end.

Definition loadTicketStat (l : loc) : M TicketStat :=
  o <~ load l ;;
  match o with OTicketStat e => ret e | _ => throw end.

(** [commit.stat.reduce(statReducer, seed)] *)
Fixpoint reduceStat (es : list loc) (accu : ShortStat) : M ShortStat :=
  match es with
  | [] => ret accu
  | l :: es' => st <~ loadFileStat l ;; reduceStat es' (statReducer accu st)
  end.

(** [ticketStatAccumulator.find((ticketStat) => ticketStat.ticket === ticket)]:
    the reference to the first record with that ticket. *)
Fixpoint findTicket (t : string) (es : list loc) : M (option loc) :=
  match es with
  | [] => ret None
  | l :: es' =>
      e <~ loadTicketStat l ;;
      if isTicket t e then ret (Some l) else findTicket t es'
  end.

Section Run.

Variable ticketRegExp : string -> option (list string).

Definition forEachBody (accLoc : loc) (ss : ShortStat) (t : string) : M unit :=
  es <~ loadArray accLoc ;;
  existingTicketStat <~ findTicket t es ;;
  match existingTicketStat with
  | Some l =>
      e <~ loadTicketStat l ;;
      store l (OTicketStat (bump ss e))
  | None =>
      l <~ alloc (OTicketStat (newTicketStat ss t)) ;;
      es' <~ loadArray accLoc ;;
      store accLoc (OArray (es' ++ [l]))
  end.

Fixpoint forEach (accLoc : loc) (ss : ShortStat) (ts : list string) : M unit :=
  match ts with
  | [] => ret tt
  | t :: ts' => forEachBody accLoc ss t ;;; forEach accLoc ss ts'
  end.

Definition commitReducer (accLoc commitLoc : loc) : M loc :=
  c <~ loadCommit commitLoc ;;
  sts <~ loadArray (snd c) ;;
  ss <~ reduceStat sts {| ss_added := 0; ss_deleted := 0; ss_total := Some 0 |} ;;
  forEach accLoc ss (default [] (ticketRegExp (fst c))) ;;;
  ret accLoc.

Fixpoint reduce (cs : list loc) (accLoc : loc) : M loc :=
  match cs with
  | [] => ret accLoc
  | c :: cs' => a <~ commitReducer accLoc c ;; reduce cs' a
  end.

(** [commits.reduce(commitReducer, [])]: the seed array is allocated by
    the call. *)
Definition analyzeCommits (commitsLoc : loc) : M loc :=
  cs <~ loadArray commitsLoc ;;
  accLoc <~ alloc (OArray []) ;;
  reduce cs accLoc.

End Run.

(** Reading a value back from the store. *)

Definition readFileStat (h : heap) (l : loc) : option FileStat :=
  match h !! l with
  | Some (OFileStat a d) => Some (mkFileStat a d)
  | _ => None
  end.

Definition readArray (h : heap) (l : loc) : option (list loc) :=
  match h !! l with
  | Some (OArray es) => Some es
  | _ => None
  end.

Definition readCommit (h : heap) (l : loc) : option Commit :=
  match h !! l with
  | Some (OCommit msg sl) =>
      sls ← readArray h sl;
      sts ← mapM (readFileStat h) sls;
      Some (mkCommit msg sts)
  | _ => None
  end.

Definition readCommits (h : heap) (l : loc) : option (list Commit) :=
  ls ← readArray h l;
  mapM (readCommit h) ls.

Definition readTicketStat (h : heap) (l : loc) : option TicketStat :=
  match h !! l with
  | Some (OTicketStat e) => Some e
  | _ => None
  end.

Definition readResult (h : heap) (l : loc) : option (list TicketStat) :=
  ls ← readArray h l;
  mapM (readTicketStat h) ls.

(** Every object of [h] is still there, unchanged, in [h']. *)
Definition preserved (h h' : heap) : Prop :=
  forall (l : loc) (o : object), h !! l = Some o -> h' !! l = Some o.

(** The record at [l] has the value [e]. *)
Definition holds (h : list object) (l : nat) (e : TicketStat) : Prop :=
  h !! l = Some (OTicketStat e).

(** The accumulator array at [accLoc] holds references to distinct records,
    all of them allocated after [h0], whose values are [acc]; nothing of
    [h0] has been touched. *)
Definition accInv (h0 h : list object) (accLoc : nat)
    (acc : list TicketStat) : Prop :=
  preserved h0 h /\ (length h0 <= accLoc)%nat /\
  exists ls, h !! accLoc = Some (OArray ls) /\
             Forall2 (holds h) ls acc /\
             Forall (fun l => (length h0 <= l)%nat) ls /\
             NoDup ls.

End Heap.

(** ** Notions the properties are stated with *)

Definition sumZ (l : list Z) : Z := fold_right Z.add 0 l.

(** The lines a commit touches: added plus deleted, over its files. *)
Definition churn (c : Commit) : Z :=
  sumZ (map (fun f => fs_added f + fs_deleted f) (stat c)).

(** What one mention does to the entry of a ticket, seen as an optional
    record: created on the first sighting, updated on the later ones. *)
Definition credit (ss : ShortStat) (t : string) (o : option TicketStat)
  : option TicketStat :=
  Some match o with
       | Some e => bump ss e
       | None => newTicketStat ss t
       end.

(** The entry of a ticket before an update, with zeros when there is none. *)
Definition entryOrZero (t : string) (o : option TicketStat) : TicketStat :=
  default (mkTicketStat t 0 0 0 0) o.

Definition mentionCount (t : string) (ts : list string) : nat :=
  count_occ string_dec ts t.

(** Position of the first occurrence of [t] in [ts] (the length of [ts]
    when there is none). *)
Fixpoint firstMention (t : string) (ts : list string) : nat :=
  match ts with
  | [] => O
  | x :: ts' => if String.eqb x t then O else S (firstMention t ts')
  end.

(** The invariant of a ticket record. *)
Definition totalOk (e : TicketStat) : Prop := total e = added e + deleted e.

(** Pointwise addition of two records of one ticket. *)
Definition addStats (a b : TicketStat) : TicketStat :=
  {| ticket := ticket a;
     added := added a + added b;
     deleted := deleted a + deleted b;
     total := total a + total b;
     commits := commits a + commits b |}.

Definition mergeEntry (r : list TicketStat) (a : TicketStat) : TicketStat :=
  match List.find (isTicket (ticket a)) r with
  | Some b => addStats a b
  | None => a
  end.

(** Merge of two per-ticket collections: the records of tickets present in
    both are added pointwise, the others are kept. *)
Definition merge (l r : list TicketStat) : list TicketStat :=
  (map (mergeEntry r) l ++
   List.filter (fun b => negb (existsb (isTicket (ticket b)) l)) r)%list.

Section Notions.

Variable ticketRegExp : string -> option (list string).

(** Every ticket mention, scanning the commits in input order and the
    matches of each message from left to right. *)
Definition allMentions (cs : list Commit) : list string :=
  flat_map (ticketsMatchedInCommit ticketRegExp) cs.

(** The mentions together with the short stat of their commit. *)
Definition attributions (cs : list Commit) : list (string * ShortStat) :=
  flat_map (fun c => map (fun t => (t, shortStat c))
                         (ticketsMatchedInCommit ticketRegExp c)) cs.

(** Number of commits of [cs] whose message mentions [t] at least once. *)
Definition mentioningCommits (t : string) (cs : list Commit) : nat :=
  length (List.filter
            (fun c => existsb (String.eqb t)
                        (ticketsMatchedInCommit ticketRegExp c)) cs).

(** The accumulator before the first commit and after each commit. *)
Fixpoint statesFrom (acc : list TicketStat) (cs : list Commit)
  : list (list TicketStat) :=
  acc :: match cs with
         | [] => []
         | c :: cs' => statesFrom (commitReducer ticketRegExp acc c) cs'
         end.

Definition states (cs : list Commit) : list (list TicketStat) :=
  statesFrom [] cs.

End Notions.

Definition attribute (acc : list TicketStat) (a : string * ShortStat)
  : list TicketStat :=
  ticketStep (snd a) acc (fst a).

(** The keys of the accumulator after the mentions [ts], from the keys
    [ks] before them. *)
Definition firstSeen (ts ks : list string) : list string :=
  fold_left (fun ks t => if existsb (String.eqb t) ks then ks
                         else (ks ++ [t])%list) ts ks.

(** [message.match(new RegExp(pattern, 'g'))] *)
Definition matchPattern (pattern message : string)
  : outcome (option (list string)) :=
  match RegExp.create pattern with
  | None => OutsideSubset
  | Some re => Returned (RegExp.match_ re message)
  end.

(** The compiled default pattern. *)
Definition defaultTicketRegExp : RegExp.regex :=
  [ (RegExp.AClass false [RegExp.CRange "A" "Z"], RegExp.QPlus);
    (RegExp.AChar "-", RegExp.QOne);
    (RegExp.AClass false [RegExp.CDigit], RegExp.QPlus) ].

(** The pattern matches at some position of the subject. *)
Fixpoint hasMatch (re : RegExp.regex) (s : list ascii) : bool :=
  match RegExp.matchItems re s with
  | Some _ => true
  | None => match s with
            | [] => false
            | _ :: s' => hasMatch re s'
            end
  end.

(** *** Auxiliary notions of the proofs *)

(** One step of the entry of the ticket [t] along the mentions. *)
Definition creditIf (t : string) (o : option TicketStat)
    (a : string * ShortStat) : option TicketStat :=
  if String.eqb (fst a) t then credit (snd a) t o else o.

Definition commitsOf (o : option TicketStat) : Z :=
  match o with
  | Some e => commits e
  | None => 0
  end.

(** Pointwise addition of optional entries. *)
Definition mergeOpt (o p : option TicketStat) : option TicketStat :=
  match o, p with
  | Some a, Some b => Some (addStats a b)
  | Some a, None => Some a
  | None, p => p
  end.

(** The keys [ks] are the tickets of [seen], in the order of their first
    occurrence. *)
Definition ordered (seen ks : list string) : Prop :=
  (forall t, In t ks <-> In t seen) /\
  (forall (i j : nat) ti tj,
      ks !! i = Some ti -> ks !! j = Some tj -> (i < j)%nat ->
      (firstMention ti seen < firstMention tj seen)%nat).

(** *** Sample inputs *)

(** The commits of the scenario of the specification. *)
Definition scenarioCommits : list Commit :=
  [ mkCommit "fix PROJ-1" [mkFileStat 5 2];
    mkCommit "PROJ-1 and PROJ-2" [mkFileStat 1 0] ].

(** A commit whose message mentions one ticket twice. *)
Definition revertCommit : Commit :=
  mkCommit "PROJ-1: revert PROJ-1" [mkFileStat 3 1; mkFileStat 0 4].

(** A store holding the commits of the scenario: the input array is at 6. *)
Definition scenarioHeap : list Heap.object :=
  [ Heap.OFileStat 5 2;
    Heap.OArray [0%nat];
    Heap.OCommit "fix PROJ-1" 1;
    Heap.OFileStat 1 0;
    Heap.OArray [3%nat];
    Heap.OCommit "PROJ-1 and PROJ-2" 4;
    Heap.OArray [2%nat; 5%nat] ].

(** *** Readings of the specification that the code does not follow *)

(** [commits] as the number of distinct commits mentioning the ticket. *)
Definition commitsCountsCommits (ticketRegExp : string -> option (list string))
    (cs : list Commit) : Prop :=
  Forall (fun e => commits e =
                   Z.of_nat (mentioningCommits ticketRegExp (ticket e) cs))
         (reduceCommits ticketRegExp cs).

(** The custom pattern matches the message, the default pattern does not. *)
Definition customMatchesDefaultDoesNot (custom message : string) : Prop :=
  (exists ms, matchPattern custom message = Returned (Some ms)) /\
  matchPattern defaultTicketPattern message = Returned None.

(** Nothing is extracted from a message that is empty or has no match. *)
Definition extractsNothing (pattern message : string) : Prop :=
  forall re, RegExp.create pattern = Some re ->
    message = "" \/ hasMatch re (list_ascii_of_string message) = false ->
    RegExp.match_ re message = None.

(** *** Closed form of an entry *)

Definition linesAdded (c : Commit) : Z := sumZ (map fs_added (stat c)).

Definition linesDeleted (c : Commit) : Z := sumZ (map fs_deleted (stat c)).

Section ClosedForm.

Variable ticketRegExp : string -> option (list string).

(** Number of times the message of [c] mentions [t]. *)
Definition mentionsIn (t : string) (c : Commit) : nat :=
  mentionCount t (ticketsMatchedInCommit ticketRegExp c).

Definition totalMentions (t : string) (cs : list Commit) : Z :=
  sumZ (map (fun c => Z.of_nat (mentionsIn t c)) cs).

(** The entry of [t] as sums over the commits, each commit weighted by the
    number of times its message mentions [t]. *)
Definition expectedEntry (t : string) (cs : list Commit) : TicketStat :=
  {| ticket := t;
     added := sumZ (map (fun c => Z.of_nat (mentionsIn t c) * linesAdded c) cs);
     deleted :=
       sumZ (map (fun c => Z.of_nat (mentionsIn t c) * linesDeleted c) cs);
     total := sumZ (map (fun c => Z.of_nat (mentionsIn t c) * churn c) cs);
     commits := totalMentions t cs |}.

End ClosedForm.

(** No file of the commits has a negative count. *)
Definition nonNegativeStats (cs : list Commit) : Prop :=
  Forall (fun c => Forall (fun f => 0 <= fs_added f /\ 0 <= fs_deleted f)
                          (stat c)) cs.

(** The ticket [x] is not among the keys [ks]. *)
Definition notIn (ks : list string) (x : string) : bool :=
  negb (existsb (String.eqb x) ks).

(** *** The shape of a default ticket *)

Definition isUpper (c : ascii) : bool := RegExp.between "A" "Z" c.

(** One or more uppercase letters, a hyphen, one or more digits. *)
Definition ticketShaped (s : list ascii) : Prop :=
  exists letters digits,
    s = (letters ++ "-"%char :: digits)%list /\
    letters <> [] /\ forallb isUpper letters = true /\
    digits <> [] /\ forallb RegExp.isDigit digits = true.

(** ** The command line ([run], [getLog], [resolveOutputPath],
    [saveStatisticsAsCsv])

    The program as a function from the parsed arguments to the sequence of
    effects it performs.  What the program calls and does not define (the
    shell, the numstat parser, the file system, the CSV writer, the
    terminal styling, the package file, the regular-expression engine) is
    a parameter.  The positional
    arguments are strings; the values of the options are the values the
    argument parser can store under an option name, numbers being
    integers. *)

Module Cli.

Inductive jsval : Type :=
| JUndefined
| JBool (b : bool)
| JNum (z : Z)
| JStr (s : string).

(** The value counts as true in a condition and on the left of [||]. *)
Definition truthy (v : jsval) : bool :=
  match v with
  | JUndefined => false
  | JBool b => b
  | JNum z => negb (z =? 0)%Z
  | JStr s => negb (String.eqb s "")
  end.

(** The pattern text [new RegExp(value, 'g')] compiles for a value. *)
Definition patternSource (v : jsval) : string :=
  match v with
  | JUndefined => "(?:)"
  | JBool true => "true"
  | JBool false => "false"
  | JNum z => NilZero.string_of_int (Z.to_int z)
  | JStr s => s
  end.

Record Argv : Type := mkArgv {
  opt_v : jsval;
  opt_version : jsval;
  opt_h : jsval;
  opt_help : jsval;
  opt_ticket_pattern : jsval;
  positional : list string
}.

Inductive error : Type :=
| Thrown (what : string)
| InvalidRegExp (pattern : string).

Inductive event : Type :=
| ConsoleLog (line : string)
| ConsoleError (e : error)
| ExecCommand (cmd : string)
| StatPath (path : string)
| WriteCsv (path : string) (records : list TicketStat)
| ProcessExit (code : Z).

Definition defaultFileName : string := "gitticketstat.csv".

Definition requiredArgNames : list string := ["repoPath"; "outputPath"].

Definition optionalArgNames : list string := ["version"; "ticket-pattern"].

Definition newline : string := String (ascii_of_nat 10) EmptyString.

Section Program.

(** [exec(cmd)]: the promise resolves with the two outputs or rejects. *)
Variable exec : string -> (string * string) + string.
(** [parseGitNumstat(log)]: the commits, or what it throws. *)
Variable parseGitNumstat : string -> list Commit + string.
(** [fs.stat(path)] then [isDirectory()]; [None] when [stat] rejects. *)
Variable isDirectory : string -> option bool.
(** [path.join] *)
Variable pathJoin : string -> string -> string.
(** [csvWriter.writeRecords]: [None] when written, else what it rejects with. *)
Variable writeRecords : string -> list TicketStat -> option string.
(** [new RegExp(pattern, 'g')]: the matcher of the compiled pattern, or
    [None] when the constructor throws. *)
Variable newRegExp : string -> option (string -> option (list string)).
(** [packageFile.version] *)
Variable packageVersion : string.
(** [chalk.underline] *)
Variable underline : string -> string.

Definition gitCommand (repoPath : string) : string :=
  "git -C " ++ repoPath ++ " log --numstat".

Definition getLog (repoPath : string) : list event * (error + string) :=
  ([ExecCommand (gitCommand repoPath)],
   match exec (gitCommand repoPath) with
   | inr e => inl (Thrown e)
   | inl (stdout, stderr) =>
       if (String.length stderr =? 0)%nat then inr stdout
       else inl (Thrown stderr)
   end).

Definition resolveOutputPath (userOutputPath : string) : list event * string :=
  ([StatPath userOutputPath],
   match isDirectory userOutputPath with
   | Some true => pathJoin userOutputPath defaultFileName
   | Some false => userOutputPath
   | None => userOutputPath
   end).

Definition saveStatisticsAsCsv (statistics : list TicketStat)
    (outputPath : string) : list event * option error :=
  ([WriteCsv outputPath statistics],
   Thrown <$> writeRecords outputPath statistics).

(** [argv['ticket-pattern'] || defaultTicketPattern], as pattern text. *)
Definition ticketPattern (argv : Argv) : string :=
  if truthy (opt_ticket_pattern argv)
  then patternSource (opt_ticket_pattern argv)
  else defaultTicketPattern.

(** The [catch] block. *)
Definition failWith (e : error) : list event :=
  [ConsoleError e; ProcessExit 1].

Definition usage : list event :=
  [ ConsoleLog "";
    ConsoleLog ("usage: gitticketstat "
                ++ String.concat " " (map underline requiredArgNames));
    ConsoleLog ("       "
                ++ String.concat " "
                     (map (fun name => "[--" ++ name ++ "]") optionalArgNames)
                ++ newline) ].

(** The [try] block. *)
Definition pipeline (argv : Argv) (repoPath outputPath : string)
  : list event :=
  let '(logEvents, gitLog) := getLog repoPath in
  match gitLog with
  | inl e => logEvents ++ failWith e
  | inr gitLog =>
      match parseGitNumstat gitLog with
      | inr e => logEvents ++ failWith (Thrown e)
      | inl commits =>
          match analyzeCommitsWith newRegExp commits (ticketPattern argv) with
          | SyntaxError | OutsideSubset =>
              (* the constructor threw; an engine always answers, so the
                 second case does not arise *)
              logEvents ++ failWith (InvalidRegExp (ticketPattern argv))
          | Returned statistics =>
              let '(statEvents, path) := resolveOutputPath outputPath in
              let '(writeEvents, failure) :=
                saveStatisticsAsCsv statistics path in
              logEvents ++ statEvents ++ writeEvents ++
              match failure with
              | Some e => failWith e
              | None => []
              end
          end
      end
  end.

Definition run (argv : Argv) : list event :=
  if truthy (opt_v argv) || truthy (opt_version argv)
  then [ConsoleLog packageVersion]
  else if truthy (opt_h argv) || truthy (opt_help argv)
          || negb (length (positional argv) =? length requiredArgNames)%nat
  then usage
  else match positional argv with
       | [repoPath; outputPath] => pipeline argv repoPath outputPath
       | _ => []
       end.

(** What may come before the exit: no exit, no error output, and no write
    other than one that failed itself. *)
Definition beforeExit (ev : event) : Prop :=
  match ev with
  | ProcessExit _ => False
  | ConsoleError _ => False
  | WriteCsv path records => writeRecords path records <> None
  | _ => True
  end.

End Program.

Definition isConsoleLog (ev : event) : bool :=
  match ev with ConsoleLog _ => true | _ => false end.

Definition isWriteCsv (ev : event) : bool :=
  match ev with WriteCsv _ _ => true | _ => false end.

End Cli.

(** *** A sample environment for the command line *)

Definition sampleExec (cmd : string) : (string * string) + string :=
  if String.eqb cmd "git -C repo log --numstat" then inl ("log", "")
  else inr "fatal: cannot change to the directory".

Definition sampleParse (log : string) : list Commit + string :=
  inl scenarioCommits.

Definition sampleIsDirectory (path : string) : option bool :=
  if String.eqb path "out" then Some true else None.

Definition samplePathJoin (a b : string) : string := a ++ "/" ++ b.

Definition sampleWrite (path : string) (records : list TicketStat)
  : option string := None.

(** An engine that knows the default pattern only. *)
Definition sampleRegExp (pattern : string)
  : option (string -> option (list string)) :=
  if String.eqb pattern defaultTicketPattern
  then Some (RegExp.match_ defaultTicketRegExp)
  else None.

Definition sampleRun : Cli.Argv -> list Cli.event :=
  Cli.run sampleExec sampleParse sampleIsDirectory samplePathJoin sampleWrite
    sampleRegExp "1.0.0" (fun name => name).

Definition sampleArgv (args : list string) : Cli.Argv :=
  Cli.mkArgv Cli.JUndefined Cli.JUndefined Cli.JUndefined Cli.JUndefined
    Cli.JUndefined args.
(** ** Basic facts about the accumulator *)

Section AccumulatorFacts.

Implicit Types (t : string) (ss : ShortStat) (e : TicketStat)
  (acc : list TicketStat).

Lemma isTicket_true t e : isTicket t e = true <-> ticket e = t.
Proof. unfold isTicket. apply String.eqb_eq. Qed.

Lemma isTicket_false t e : isTicket t e = false <-> ticket e <> t.
Proof. unfold isTicket. apply String.eqb_neq. Qed.

Lemma isTicket_bump t ss e : isTicket t (bump ss e) = isTicket t e.
Proof. reflexivity. Qed.

Lemma find_isTicket_Some t acc e :
  List.find (isTicket t) acc = Some e -> ticket e = t /\ In e acc.
Proof.
  intros H. apply find_some in H as [Hin Ht].
  split; [by apply isTicket_true | done].
Qed.

Lemma find_isTicket_None t acc :
  List.find (isTicket t) acc = None <-> ~ In t (map ticket acc).
Proof.
  induction acc as [|e acc IH]; simpl; [tauto|].
  destruct (isTicket t e) eqn:He.
  - apply isTicket_true in He. split; [done | intros []; by left].
  - apply isTicket_false in He. rewrite IH. tauto.
Qed.

Lemma find_app_one (p : TicketStat -> bool) acc e :
  List.find p (acc ++ [e]) =
  match List.find p acc with
  | Some x => Some x
  | None => if p e then Some e else None
  end.
Proof.
  induction acc as [|a acc IH]; simpl; [done|].
  destruct (p a); [done | apply IH].
Qed.

Lemma find_updateFirst t t' ss acc :
  List.find (isTicket t') (updateFirst (isTicket t) (bump ss) acc) =
  if String.eqb t t' then bump ss <$> List.find (isTicket t') acc
  else List.find (isTicket t') acc.
Proof.
  induction acc as [|e acc IH]; simpl.
  - by destruct (String.eqb t t').
  - destruct (isTicket t e) eqn:He; simpl.
    + rewrite isTicket_bump. apply isTicket_true in He.
      destruct (String.eqb t t') eqn:Htt.
      * apply String.eqb_eq in Htt. subst t'.
        assert (isTicket t e = true) as -> by by apply isTicket_true.
        done.
      * apply String.eqb_neq in Htt.
        assert (isTicket t' e = false) as -> by (apply isTicket_false; congruence).
        done.
    + destruct (isTicket t' e) eqn:He'.
      * apply isTicket_true in He'. apply isTicket_false in He.
        assert (String.eqb t t' = false) as -> by (apply String.eqb_neq; congruence).
        done.
      * apply IH.
Qed.

Lemma map_ticket_updateFirst t ss acc :
  map ticket (updateFirst (isTicket t) (bump ss) acc) = map ticket acc.
Proof.
  induction acc as [|e acc IH]; simpl; [done|].
  destruct (isTicket t e); simpl; [done | by rewrite IH].
Qed.

Lemma find_ticketStep t t' ss acc :
  List.find (isTicket t') (ticketStep ss acc t) =
  if String.eqb t t' then credit ss t (List.find (isTicket t') acc)
  else List.find (isTicket t') acc.
Proof.
  unfold ticketStep.
  destruct (List.find (isTicket t) acc) as [e|] eqn:Hf.
  - rewrite find_updateFirst.
    destruct (String.eqb t t') eqn:Htt; [|done].
    apply String.eqb_eq in Htt. subst t'. by rewrite Hf.
  - rewrite find_app_one.
    destruct (String.eqb t t') eqn:Htt.
    + apply String.eqb_eq in Htt. subst t'. rewrite Hf. simpl.
      unfold isTicket. simpl. by rewrite String.eqb_refl.
    + destruct (List.find (isTicket t') acc); [done|].
      unfold isTicket. simpl. by rewrite Htt.
Qed.

Lemma map_ticket_ticketStep t ss acc :
  map ticket (ticketStep ss acc t) =
  if existsb (String.eqb t) (map ticket acc) then map ticket acc
  else (map ticket acc ++ [t])%list.
Proof.
  unfold ticketStep.
  destruct (List.find (isTicket t) acc) as [e|] eqn:Hf.
  - rewrite map_ticket_updateFirst.
    apply find_isTicket_Some in Hf as [Ht Hin].
    assert (existsb (String.eqb t) (map ticket acc) = true) as ->; [|done].
    apply existsb_exists. exists t. split; [|apply String.eqb_refl].
    rewrite <- Ht. by apply in_map.
  - apply find_isTicket_None in Hf.
    assert (existsb (String.eqb t) (map ticket acc) = false) as ->.
    { apply not_true_is_false. intros [x [Hx Hxt]]%existsb_exists.
      apply String.eqb_eq in Hxt. by subst x. }
    by rewrite map_app.
Qed.

End AccumulatorFacts.

(** ** The fold, mention by mention *)

Section FoldFacts.

Variable ticketRegExp : string -> option (list string).

Abbreviation tickets := (ticketsMatchedInCommit ticketRegExp).
Abbreviation reducer := (commitReducer ticketRegExp).

Lemma fold_ticketStep_attribute ss ts acc :
  fold_left (ticketStep ss) ts acc =
  fold_left attribute (map (fun t => (t, ss)) ts) acc.
Proof.
  revert acc. induction ts as [|t ts IH]; intros acc; simpl; [done|].
  apply IH.
Qed.

Lemma fold_commitReducer_attribute cs acc :
  fold_left reducer cs acc =
  fold_left attribute (attributions ticketRegExp cs) acc.
Proof.
  revert acc. induction cs as [|c cs IH]; intros acc; simpl; [done|].
  rewrite fold_left_app, <- fold_ticketStep_attribute. apply IH.
Qed.

Lemma map_fst_attributions cs :
  map fst (attributions ticketRegExp cs) = allMentions ticketRegExp cs.
Proof.
  induction cs as [|c cs IH]; simpl; [done|].
  rewrite map_app, IH, map_map. simpl. by rewrite map_id.
Qed.

Lemma reduceCommits_app xs ys :
  reduceCommits ticketRegExp (xs ++ ys) =
  fold_left reducer ys (reduceCommits ticketRegExp xs).
Proof. unfold reduceCommits. apply fold_left_app. Qed.

(** The states of the fold. *)

Lemma statesFrom_Forall (P : list TicketStat -> Prop) cs acc :
  P acc ->
  (forall acc c, P acc -> P (reducer acc c)) ->
  Forall P (statesFrom ticketRegExp acc cs).
Proof.
  intros Hacc Hstep. revert acc Hacc.
  induction cs as [|c cs IH]; intros acc Hacc; simpl.
  - by constructor.
  - constructor; [done|]. apply IH. by apply Hstep.
Qed.

Lemma statesFrom_last cs acc :
  last (statesFrom ticketRegExp acc cs) = Some (fold_left reducer cs acc).
Proof.
  revert acc. induction cs as [|c cs IH]; intros acc; [done|].
  simpl statesFrom. rewrite last_cons, IH. done.
Qed.

Lemma statesFrom_lookup cs acc n :
  (n <= length cs)%nat ->
  statesFrom ticketRegExp acc cs !! n = Some (fold_left reducer (take n cs) acc).
Proof.
  revert acc n. induction cs as [|c cs IH]; intros acc [|n] Hn; simpl in *;
    try done; try lia.
  apply IH. lia.
Qed.

End FoldFacts.

(** Invariants of one step. *)

Lemma totalOk_ticketStep ss acc t :
  Forall totalOk acc -> Forall totalOk (ticketStep ss acc t).
Proof.
  intros Hacc. unfold ticketStep.
  destruct (List.find (isTicket t) acc) as [e0|].
  - clear e0. induction Hacc as [|e acc He Hacc IH]; simpl; [constructor|].
    destruct (isTicket t e).
    + constructor; [|done]. unfold totalOk in *. simpl. lia.
    + by constructor.
  - apply Forall_app. split; [done|]. constructor; [|constructor].
    unfold totalOk. simpl. lia.
Qed.

Lemma fold_attribute_inv (P : list TicketStat -> Prop) :
  (forall ss acc t, P acc -> P (ticketStep ss acc t)) ->
  forall ats acc, P acc -> P (fold_left attribute ats acc).
Proof.
  intros Hstep ats. induction ats as [|[t ss] ats IH]; intros acc Hacc; simpl;
    [done|].
  apply IH. by apply Hstep.
Qed.

Lemma NoDup_ticketStep ss acc t :
  List.NoDup (map ticket acc) -> List.NoDup (map ticket (ticketStep ss acc t)).
Proof.
  intros Hnd. rewrite map_ticket_ticketStep.
  destruct (existsb (String.eqb t) (map ticket acc)) eqn:Hex; [done|].
  apply NoDup_ListNoDup, NoDup_app. rewrite NoDup_ListNoDup.
  split; [done|]. split; [|apply NoDup_singleton].
  intros x Hx ->%list_elem_of_singleton.
  apply not_true_iff_false in Hex. apply Hex.
  apply existsb_exists. exists t. split; [|apply String.eqb_refl].
  by apply list_elem_of_In.
Qed.

Lemma find_unique acc e :
  List.NoDup (map ticket acc) -> In e acc ->
  List.find (isTicket (ticket e)) acc = Some e.
Proof.
  induction acc as [|a acc IH]; simpl; [done|].
  intros Hnd [->|Hin].
  - assert (isTicket (ticket e) e = true) as -> by by apply isTicket_true.
    done.
  - inversion Hnd as [|? ? Hnotin Hnd']; subst.
    destruct (isTicket (ticket e) a) eqn:Ha.
    + apply isTicket_true in Ha. exfalso. apply Hnotin. rewrite Ha.
      by apply in_map.
    + by apply IH.
Qed.

(** The entry of one ticket along the fold. *)

Lemma find_fold_attribute t ats acc :
  List.find (isTicket t) (fold_left attribute ats acc) =
  fold_left (creditIf t) ats (List.find (isTicket t) acc).
Proof.
  revert acc. induction ats as [|[x ss] ats IH]; intros acc; simpl; [done|].
  rewrite IH. unfold attribute. simpl. rewrite find_ticketStep.
  f_equal. unfold creditIf. simpl.
  destruct (String.eqb x t) eqn:Hx; [|done].
  apply String.eqb_eq in Hx. by subst x.
Qed.

Lemma find_fold_ticketStep t ss ts acc :
  List.find (isTicket t) (fold_left (ticketStep ss) ts acc) =
  Nat.iter (mentionCount t ts) (credit ss t) (List.find (isTicket t) acc).
Proof.
  revert acc. induction ts as [|x ts IH]; intros acc; simpl; [done|].
  rewrite IH, find_ticketStep. unfold mentionCount. simpl.
  destruct (string_dec x t) as [->|Hne].
  - rewrite String.eqb_refl. symmetry. apply Nat.iter_succ_r.
  - apply String.eqb_neq in Hne. by rewrite Hne.
Qed.

Lemma iter_credit ss t k o :
  (0 < k)%nat ->
  exists e', Nat.iter k (credit ss t) o = Some e' /\
    ticket e' = ticket (entryOrZero t o) /\
    added e' = added (entryOrZero t o) + Z.of_nat k * ss_added ss /\
    deleted e' = deleted (entryOrZero t o) + Z.of_nat k * ss_deleted ss /\
    total e' = total (entryOrZero t o)
               + Z.of_nat k * (ss_added ss + ss_deleted ss) /\
    commits e' = commits (entryOrZero t o) + Z.of_nat k.
Proof.
  induction k as [|k IH]; [lia|]. intros _.
  destruct k as [|k].
  - simpl. eexists. split; [done|].
    destruct o as [e|]; simpl; repeat split; lia.
  - destruct IH as (e & He & Ht & Ha & Hd & Htot & Hc); [lia|].
    rewrite Nat.iter_succ, He. simpl credit.
    eexists. split; [done|]. simpl ticket. simpl added. simpl deleted.
    simpl total. simpl commits.
    repeat split; [done|lia..].
Qed.

Lemma commitsOf_fold t ats o :
  commitsOf (fold_left (creditIf t) ats o) =
  commitsOf o + Z.of_nat (mentionCount t (map fst ats)).
Proof.
  revert o. induction ats as [|[x ss] ats IH]; intros o; simpl; [lia|].
  rewrite IH. unfold creditIf, mentionCount. simpl.
  destruct (string_dec x t) as [->|Hne].
  - rewrite String.eqb_refl. destruct o; simpl; lia.
  - apply String.eqb_neq in Hne. rewrite Hne. lia.
Qed.

(** Pointwise addition and the fold. *)

Lemma addStats_bump ss a b : bump ss (addStats a b) = addStats a (bump ss b).
Proof. unfold bump, addStats. simpl. f_equal; lia. Qed.

Lemma creditIf_mergeOpt t o p a :
  creditIf t (mergeOpt o p) a = mergeOpt o (creditIf t p a).
Proof.
  unfold creditIf. destruct (String.eqb (fst a) t); [|done].
  destruct o as [x|], p as [y|]; unfold credit, mergeOpt; try done.
  by rewrite addStats_bump.
Qed.

Lemma fold_creditIf_mergeOpt t ats o p :
  fold_left (creditIf t) ats (mergeOpt o p) =
  mergeOpt o (fold_left (creditIf t) ats p).
Proof.
  revert p. induction ats as [|a ats IH]; intros p; simpl; [done|].
  by rewrite creditIf_mergeOpt, IH.
Qed.

Lemma find_app_list (p : TicketStat -> bool) l1 l2 :
  List.find p (l1 ++ l2) =
  match List.find p l1 with
  | Some x => Some x
  | None => List.find p l2
  end.
Proof.
  induction l1 as [|a l1 IH]; simpl; [done|]. by destruct (p a).
Qed.

Lemma ticket_mergeEntry r a : ticket (mergeEntry r a) = ticket a.
Proof. unfold mergeEntry. by destruct (List.find _ r). Qed.

Lemma find_merge t l r :
  List.find (isTicket t) (merge l r) =
  mergeOpt (List.find (isTicket t) l) (List.find (isTicket t) r).
Proof.
  unfold merge. rewrite find_app_list.
  assert (List.find (isTicket t) (map (mergeEntry r) l) =
          mergeEntry r <$> List.find (isTicket t) l) as ->.
  { induction l as [|a l IH]; simpl; [done|].
    unfold isTicket at 1. rewrite ticket_mergeEntry.
    fold (isTicket t a). by destruct (isTicket t a). }
  destruct (List.find (isTicket t) l) as [a|] eqn:Hl; simpl.
  - apply find_isTicket_Some in Hl as [Ht _]. unfold mergeEntry.
    rewrite Ht. by destruct (List.find (isTicket t) r).
  - apply find_isTicket_None in Hl.
    induction r as [|b r IH]; simpl; [done|].
    destruct (isTicket t b) eqn:Hb.
    + apply isTicket_true in Hb.
      assert (existsb (isTicket (ticket b)) l = false) as ->.
      { apply not_true_is_false. intros [x [Hx Hxt]]%existsb_exists.
        apply isTicket_true in Hxt. apply Hl. rewrite <- Hb, <- Hxt.
        by apply in_map. }
      simpl. assert (isTicket t b = true) as -> by by apply isTicket_true.
      done.
    + destruct (negb _); simpl; [by rewrite Hb|done].
Qed.

Lemma in_keys_filter (q : TicketStat -> bool) r x :
  In x (map ticket (List.filter q r)) ->
  exists b, In b r /\ q b = true /\ ticket b = x.
Proof.
  intros [b [Hb Hin]]%in_map_iff. apply filter_In in Hin as [Hin Hq].
  by exists b.
Qed.

Lemma NoDup_keys_filter (q : TicketStat -> bool) r :
  List.NoDup (map ticket r) -> List.NoDup (map ticket (List.filter q r)).
Proof.
  induction r as [|b r IH]; simpl; [done|].
  intros Hnd. inversion Hnd as [|? ? Hnotin Hnd']; subst.
  destruct (q b); simpl; [|by apply IH].
  constructor; [|by apply IH].
  intros (b' & Hb' & _ & Heq)%in_keys_filter. apply Hnotin.
  rewrite <- Heq. by apply in_map.
Qed.

Lemma NoDup_keys_merge l r :
  List.NoDup (map ticket l) -> List.NoDup (map ticket r) ->
  List.NoDup (map ticket (merge l r)).
Proof.
  intros Hl Hr. unfold merge. rewrite map_app, map_map.
  rewrite (map_ext (fun a => ticket (mergeEntry r a)) ticket)
    by apply ticket_mergeEntry.
  apply NoDup_ListNoDup, NoDup_app. rewrite !NoDup_ListNoDup.
  split; [done|]. split; [|by apply NoDup_keys_filter].
  intros x Hx%list_elem_of_In Hx'%list_elem_of_In.
  apply in_keys_filter in Hx' as (b & _ & Hq & Heq).
  apply negb_true_iff, not_true_iff_false in Hq. apply Hq.
  apply in_map_iff in Hx as (a & Ha & Hin).
  apply existsb_exists. exists a. split; [done|].
  apply isTicket_true. congruence.
Qed.

(** Sums of the totals. *)

Lemma sumZ_app l1 l2 : sumZ (l1 ++ l2) = sumZ l1 + sumZ l2.
Proof. induction l1 as [|x l1 IH]; simpl; [done|]. rewrite IH. lia. Qed.

Lemma sum_total_ticketStep ss acc t :
  sumZ (map total (ticketStep ss acc t)) =
  sumZ (map total acc) + (ss_added ss + ss_deleted ss).
Proof.
  unfold ticketStep.
  destruct (List.find (isTicket t) acc) as [e0|] eqn:Hf.
  - revert Hf. induction acc as [|e acc IH]; simpl; [done|].
    destruct (isTicket t e); simpl; [lia|].
    intros Hf. rewrite IH by done. lia.
  - rewrite map_app, sumZ_app. simpl. lia.
Qed.

Lemma sum_total_fold_ticketStep ss ts acc :
  sumZ (map total (fold_left (ticketStep ss) ts acc)) =
  sumZ (map total acc) + Z.of_nat (length ts) * (ss_added ss + ss_deleted ss).
Proof.
  revert acc. induction ts as [|t ts IH]; intros acc; [simpl; lia|].
  cbn [fold_left]. rewrite IH, sum_total_ticketStep.
  rewrite length_cons. lia.
Qed.

Lemma shortStat_fold l a :
  ss_added (fold_left statReducer l a) = sumZ (map fs_added l) + ss_added a /\
  ss_deleted (fold_left statReducer l a) = sumZ (map fs_deleted l) + ss_deleted a.
Proof.
  revert a. induction l as [|f l IH]; intros a; simpl; [lia|].
  destruct (IH (statReducer a f)) as [-> ->]. simpl. lia.
Qed.

Lemma shortStat_churn c :
  ss_added (shortStat c) + ss_deleted (shortStat c) = churn c.
Proof.
  unfold shortStat, churn.
  destruct (shortStat_fold (stat c)
              {| ss_added := 0; ss_deleted := 0; ss_total := Some 0 |})
    as [-> ->]. simpl.
  induction (stat c) as [|f l IH]; simpl; lia.
Qed.

(** The order of the keys. *)

Lemma map_ticket_fold_attribute ats acc :
  map ticket (fold_left attribute ats acc) =
  firstSeen (map fst ats) (map ticket acc).
Proof.
  revert acc. induction ats as [|[t ss] ats IH]; intros acc; simpl; [done|].
  rewrite IH. unfold attribute. simpl. by rewrite map_ticket_ticketStep.
Qed.

Lemma firstMention_app_in t l l' :
  In t l -> firstMention t (l ++ l') = firstMention t l.
Proof.
  induction l as [|x l IH]; simpl; [done|].
  intros Hin. destruct (String.eqb x t) eqn:Hx; [done|].
  apply String.eqb_neq in Hx. f_equal. apply IH. by destruct Hin.
Qed.

Lemma firstMention_app_notin t l l' :
  ~ In t l -> firstMention t (l ++ l') = (length l + firstMention t l')%nat.
Proof.
  induction l as [|x l IH]; simpl; [done|].
  intros Hnotin. destruct (String.eqb x t) eqn:Hx.
  - apply String.eqb_eq in Hx. tauto.
  - f_equal. apply IH. tauto.
Qed.

Lemma firstMention_lt t l : In t l -> (firstMention t l < length l)%nat.
Proof.
  induction l as [|x l IH]; simpl; [done|].
  intros Hin. destruct (String.eqb x t) eqn:Hx; [lia|].
  apply String.eqb_neq in Hx. apply -> Nat.succ_lt_mono. apply IH.
  by destruct Hin.
Qed.

Lemma ordered_step seen ks t :
  ordered seen ks ->
  ordered (seen ++ [t])
    (if existsb (String.eqb t) ks then ks else (ks ++ [t])%list).
Proof.
  intros [Hsame Hord].
  destruct (existsb (String.eqb t) ks) eqn:Hex.
  - apply existsb_exists in Hex as [x [Hx ->%String.eqb_eq]].
    split.
    + intros y. rewrite in_app_iff, Hsame. simpl. split; [tauto|].
      intros [?|[<-|[]]]; [done|]. by apply Hsame.
    + intros i j ti tj Hi Hj Hij.
      rewrite !firstMention_app_in.
      * by eapply Hord.
      * apply Hsame, list_elem_of_In, list_elem_of_lookup. eauto.
      * apply Hsame, list_elem_of_In, list_elem_of_lookup. eauto.
  - assert (~ In t ks) as Hnotin.
    { intros Hin. apply not_true_iff_false in Hex. apply Hex.
      apply existsb_exists. exists t. split; [done|apply String.eqb_refl]. }
    split.
    + intros y. rewrite !in_app_iff, Hsame. tauto.
    + intros i j ti tj Hi Hj Hij.
      assert (In ti ks) as Hti.
      { apply lookup_app_Some in Hi as [Hi|[Hlen Hi]].
        - apply list_elem_of_In, list_elem_of_lookup. eauto.
        - apply lookup_lt_Some in Hj. rewrite length_app in Hj.
          simpl in Hj. lia. }
      rewrite (firstMention_app_in ti) by by apply Hsame.
      apply lookup_app_Some in Hj as [Hj|[Hlen Hj]].
      * rewrite firstMention_app_in.
        -- apply lookup_app_Some in Hi as [Hi|[Hlen Hi]].
           ++ by eapply Hord.
           ++ apply lookup_lt_Some in Hj. lia.
        -- apply Hsame, list_elem_of_In, list_elem_of_lookup. eauto.
      * apply list_lookup_singleton_Some in Hj as [_ <-].
        rewrite firstMention_app_notin by (rewrite <- Hsame; done).
        apply Hsame, firstMention_lt in Hti. lia.
Qed.

Lemma firstSeen_ordered ts seen ks :
  ordered seen ks -> ordered (seen ++ ts) (firstSeen ts ks).
Proof.
  revert seen ks. induction ts as [|t ts IH]; intros seen ks Hord; simpl.
  - by rewrite app_nil_r.
  - replace (seen ++ t :: ts)%list with ((seen ++ [t]) ++ ts)%list
      by (by rewrite <- app_assoc).
    apply IH. by apply ordered_step.
Qed.

(** No match anywhere in the subject. *)

Lemma scan_no_match re s :
  hasMatch re s = false -> forall skip, RegExp.scan re skip s = [].
Proof.
  induction s as [|c s IH]; simpl.
  - destruct (RegExp.matchItems re []) eqn:Hm; [done|].
    intros _ [|skip]; simpl; by rewrite ?Hm.
  - destruct (RegExp.matchItems re (c :: s)) eqn:Hm; [done|].
    intros Hs [|skip]; simpl; rewrite ?Hm; by apply IH.
Qed.

Lemma match_no_match re message :
  hasMatch re (list_ascii_of_string message) = false ->
  RegExp.match_ re message = None.
Proof.
  intros H. unfold RegExp.match_. by rewrite scan_no_match.
Qed.

(** ** The store model refines the value model *)

Module HeapFacts.

Lemma preserved_refl h : Heap.preserved h h.
Proof. by intros l o. Qed.

Lemma preserved_alloc h0 h o :
  Heap.preserved h0 h -> Heap.preserved h0 (h ++ [o]).
Proof. intros Hp l x Hl. apply lookup_app_l_Some. by apply Hp. Qed.

Lemma preserved_store h0 h l o :
  Heap.preserved h0 h -> (length h0 <= l)%nat ->
  Heap.preserved h0 (<[l := o]> h).
Proof.
  intros Hp Hl l' x Hl'. rewrite list_lookup_insert_ne.
  - by apply Hp.
  - apply lookup_lt_Some in Hl'. lia.
Qed.

Lemma readFileStat_preserved h h' l f :
  Heap.preserved h h' ->
  Heap.readFileStat h l = Some f -> Heap.readFileStat h' l = Some f.
Proof.
  intros Hp. unfold Heap.readFileStat.
  destruct (h !! l) as [o|] eqn:Hl; [|done].
  by rewrite (Hp _ _ Hl).
Qed.

Lemma readArray_preserved h h' l ls :
  Heap.preserved h h' ->
  Heap.readArray h l = Some ls -> Heap.readArray h' l = Some ls.
Proof.
  intros Hp. unfold Heap.readArray.
  destruct (h !! l) as [o|] eqn:Hl; [|done].
  by rewrite (Hp _ _ Hl).
Qed.

Lemma readArray_Some h l ls :
  Heap.readArray h l = Some ls <-> h !! l = Some (Heap.OArray ls).
Proof.
  unfold Heap.readArray. destruct (h !! l) as [[]|]; naive_solver.
Qed.

Lemma mapM_preserved {A} (f g : nat -> option A) ls xs :
  (forall l x, f l = Some x -> g l = Some x) ->
  mapM f ls = Some xs -> mapM g ls = Some xs.
Proof.
  intros Hfg H. apply mapM_Some. apply mapM_Some in H.
  eapply Forall2_impl; [done|]. apply Hfg.
Qed.

Lemma readCommit_preserved h h' l c :
  Heap.preserved h h' ->
  Heap.readCommit h l = Some c -> Heap.readCommit h' l = Some c.
Proof.
  intros Hp. unfold Heap.readCommit.
  destruct (h !! l) as [o|] eqn:Hl; [|done].
  rewrite (Hp _ _ Hl). destruct o as [| msg sl | |]; try done.
  destruct (Heap.readArray h sl) as [sls|] eqn:Hsl; [|done].
  rewrite (readArray_preserved _ _ _ _ Hp Hsl). simpl.
  destruct (mapM (Heap.readFileStat h) sls) as [sts|] eqn:Hsts; [|done].
  rewrite (mapM_preserved _ (Heap.readFileStat h') _ _
             (fun l f => readFileStat_preserved h h' l f Hp) Hsts).
  done.
Qed.

Lemma readCommits_preserved h h' l cs :
  Heap.preserved h h' ->
  Heap.readCommits h l = Some cs -> Heap.readCommits h' l = Some cs.
Proof.
  intros Hp. unfold Heap.readCommits.
  destruct (Heap.readArray h l) as [ls|] eqn:Hl; [|done].
  rewrite (readArray_preserved _ _ _ _ Hp Hl). simpl.
  apply mapM_preserved. intros ? ?. by apply readCommit_preserved.
Qed.

Lemma reduceStat_ok h sls sts accu :
  mapM (Heap.readFileStat h) sls = Some sts ->
  Heap.reduceStat sls accu h = Some (fold_left statReducer sts accu, h).
Proof.
  intros H. apply mapM_Some in H. revert accu.
  induction H as [|l f sls sts Hl _ IH]; intros accu; simpl; [done|].
  unfold Heap.bind, Heap.loadFileStat, Heap.load, Heap.bind.
  unfold Heap.readFileStat in Hl.
  destruct (h !! l) as [[a d| | |]|]; try done.
  simpl. injection Hl as <-. apply IH.
Qed.

Lemma holds_insert_notin h l o ls acc :
  l ∉ ls -> Forall2 (Heap.holds h) ls acc -> Forall2 (Heap.holds (<[l := o]> h)) ls acc.
Proof.
  intros Hnotin H. induction H as [|l' e ls acc Hl' _ IH]; [constructor|].
  apply not_elem_of_cons in Hnotin as [Hne Hnotin].
  constructor; [|by apply IH].
  unfold Heap.holds. by rewrite list_lookup_insert_ne.
Qed.

Lemma findTicket_None h t ls acc :
  Forall2 (Heap.holds h) ls acc ->
  List.find (isTicket t) acc = None ->
  Heap.findTicket t ls h = Some (None, h).
Proof.
  intros H. induction H as [|l e ls acc Hl _ IH]; simpl; [done|].
  unfold Heap.bind, Heap.loadTicketStat, Heap.load, Heap.bind.
  rewrite Hl. simpl. destruct (isTicket t e); [done|]. apply IH.
Qed.

Lemma findTicket_Some h t ss ls acc e :
  NoDup ls ->
  Forall2 (Heap.holds h) ls acc ->
  List.find (isTicket t) acc = Some e ->
  exists l, Heap.findTicket t ls h = Some (Some l, h) /\
            Heap.holds h l e /\ l ∈ ls /\
            Forall2 (Heap.holds (<[l := Heap.OTicketStat (bump ss e)]> h)) ls
              (updateFirst (isTicket t) (bump ss) acc).
Proof.
  intros Hnd H. revert Hnd.
  induction H as [|l0 e0 ls acc Hl0 Hrest IH]; intros Hnd Hf; simpl in *;
    [done|].
  apply NoDup_cons in Hnd as [Hnotin Hnd].
  unfold Heap.bind, Heap.loadTicketStat, Heap.load, Heap.bind.
  rewrite Hl0. simpl. destruct (isTicket t e0) eqn:He0.
  - injection Hf as <-. exists l0. split; [done|]. split; [done|].
    split; [apply list_elem_of_here|].
    constructor.
    + unfold Heap.holds. apply list_lookup_insert_eq. by eapply lookup_lt_Some.
    + by apply holds_insert_notin.
  - destruct (IH Hnd Hf) as (l & Hfind & Hl & Hin & Hupd).
    exists l. split; [done|]. split; [done|].
    split; [by apply list_elem_of_further|].
    constructor; [|done].
    unfold Heap.holds. rewrite list_lookup_insert_ne; [done|].
    intros ->. done.
Qed.

Section RunFacts.

Variable ticketRegExp : string -> option (list string).

Lemma forEachBody_ok h0 h accLoc acc ss t :
  Heap.accInv h0 h accLoc acc ->
  exists h', Heap.forEachBody accLoc ss t h = Some (tt, h') /\
             Heap.accInv h0 h' accLoc (ticketStep ss acc t).
Proof.
  intros (Hp & Hacc & ls & Harr & Hls & Hfresh & Hnd).
  unfold Heap.forEachBody, ticketStep.
  unfold Heap.bind at 1. unfold Heap.loadArray, Heap.bind, Heap.load.
  rewrite Harr. simpl.
  destruct (List.find (isTicket t) acc) as [e|] eqn:Hf.
  - destruct (findTicket_Some h t ss ls acc e Hnd Hls Hf)
      as (l & Hfind & Hl & Hin & Hupd).
    rewrite Hfind. unfold Heap.loadTicketStat, Heap.bind, Heap.load.
    rewrite Hl. simpl. unfold Heap.store.
    assert ((l <? length h)%nat = true) as ->.
    { apply Nat.ltb_lt. by eapply lookup_lt_Some. }
    eexists. split; [done|].
    assert (length h0 <= l)%nat as Hl0.
    { rewrite Forall_forall in Hfresh. by apply Hfresh. }
    split; [by apply preserved_store|]. split; [done|].
    exists ls. split; [|done].
    rewrite list_lookup_insert_ne; [done|].
    intros ->. unfold Heap.holds in Hl. congruence.
  - rewrite (findTicket_None h t ls acc Hls Hf).
    unfold Heap.alloc, Heap.store. simpl.
    assert (accLoc < length h)%nat as Hlt by by eapply lookup_lt_Some.
    rewrite (lookup_app_l_Some _ _ _ _ Harr). unfold Heap.ret.
    rewrite length_app. simpl.
    assert ((accLoc <? length h + 1)%nat = true) as ->
      by (apply Nat.ltb_lt; lia).
    eexists. split; [done|].
    assert (forall l e, Heap.holds h l e ->
              Heap.holds (<[accLoc := Heap.OArray (ls ++ [length h])]>
                       (h ++ [Heap.OTicketStat (newTicketStat ss t)])%list) l e)
      as Hkeep.
    { intros l e Hl. unfold Heap.holds. rewrite list_lookup_insert_ne.
      - by apply lookup_app_l_Some.
      - intros ->. unfold Heap.holds in Hl. congruence. }
    split; [apply preserved_store; [by apply preserved_alloc|done]|].
    split; [done|].
    exists (ls ++ [length h])%list. split; [|split; [|split]].
    + apply list_lookup_insert_eq. rewrite length_app. simpl. lia.
    + apply Forall2_app.
      * eapply Forall2_impl; [done|]. apply Hkeep.
      * constructor; [|constructor]. unfold Heap.holds.
        rewrite list_lookup_insert_ne by lia.
        by rewrite list_lookup_middle.
    + apply Forall_app. split; [done|]. constructor; [lia|constructor].
    + apply NoDup_app. split; [done|]. split; [|apply NoDup_singleton].
      intros l Hl ->%list_elem_of_singleton.
      apply list_elem_of_lookup in Hl as [i Hi].
      destruct (Forall2_lookup_l _ _ _ _ _ Hls Hi) as (e & _ & He).
      apply lookup_lt_Some in He. lia.
Qed.

Lemma forEach_ok h0 ss ts h accLoc acc :
  Heap.accInv h0 h accLoc acc ->
  exists h', Heap.forEach accLoc ss ts h = Some (tt, h') /\
             Heap.accInv h0 h' accLoc (fold_left (ticketStep ss) ts acc).
Proof.
  revert h acc. induction ts as [|t ts IH]; intros h acc Hinv; simpl.
  - by exists h.
  - destruct (forEachBody_ok h0 h accLoc acc ss t Hinv) as (h1 & Hrun & Hinv1).
    unfold Heap.bind. rewrite Hrun. by apply IH.
Qed.

Lemma readCommit_Some h l c :
  Heap.readCommit h l = Some c ->
  exists sl sls, h !! l = Some (Heap.OCommit (message c) sl) /\
                 h !! sl = Some (Heap.OArray sls) /\
                 mapM (Heap.readFileStat h) sls = Some (stat c).
Proof.
  unfold Heap.readCommit.
  destruct (h !! l) as [[| msg sl | |]|]; try done.
  destruct (Heap.readArray h sl) as [sls|] eqn:Hsl; [|done]. simpl.
  destruct (mapM (Heap.readFileStat h) sls) as [sts|] eqn:Hsts; [|done].
  simpl. intros [= <-]. exists sl, sls. simpl.
  split; [done|]. split; [by apply readArray_Some|done].
Qed.

Lemma commitReducer_ok h0 h accLoc acc cl c :
  Heap.accInv h0 h accLoc acc ->
  Heap.readCommit h0 cl = Some c ->
  exists h', Heap.commitReducer ticketRegExp accLoc cl h = Some (accLoc, h') /\
             Heap.accInv h0 h' accLoc (commitReducer ticketRegExp acc c).
Proof.
  intros Hinv Hc.
  assert (Heap.readCommit h cl = Some c) as Hc'.
  { destruct Hinv as [Hp _]. by eapply readCommit_preserved. }
  apply readCommit_Some in Hc' as (sl & sls & Hcl & Hsl & Hsts).
  unfold Heap.commitReducer.
  unfold Heap.bind at 1. unfold Heap.loadCommit, Heap.bind at 1, Heap.load.
  rewrite Hcl. simpl.
  unfold Heap.bind at 1. unfold Heap.loadArray, Heap.bind at 1, Heap.load.
  rewrite Hsl. simpl.
  unfold Heap.bind at 1. rewrite (reduceStat_ok _ _ _ _ Hsts).
  fold (shortStat c).
  destruct (forEach_ok h0 (shortStat c)
              (default [] (ticketRegExp (message c))) h accLoc acc Hinv)
    as (h' & Hrun & Hinv').
  unfold Heap.bind. rewrite Hrun. exists h'. split; [done|].
  unfold commitReducer, ticketsMatchedInCommit.
  by destruct (ticketRegExp (message c)).
Qed.

Lemma reduce_ok h0 cls cs h accLoc acc :
  Forall2 (fun l c => Heap.readCommit h0 l = Some c) cls cs ->
  Heap.accInv h0 h accLoc acc ->
  exists h', Heap.reduce ticketRegExp cls accLoc h = Some (accLoc, h') /\
             Heap.accInv h0 h' accLoc (fold_left (commitReducer ticketRegExp) cs acc).
Proof.
  intros H. revert h acc.
  induction H as [|cl c cls cs Hc _ IH]; intros h acc Hinv; simpl.
  - by exists h.
  - destruct (commitReducer_ok h0 h accLoc acc cl c Hinv Hc)
      as (h1 & Hrun & Hinv1).
    unfold Heap.bind. rewrite Hrun. by apply IH.
Qed.

Lemma accInv_readResult h0 h accLoc acc :
  Heap.accInv h0 h accLoc acc -> Heap.readResult h accLoc = Some acc.
Proof.
  intros (_ & _ & ls & Harr & Hls & _).
  unfold Heap.readResult.
  rewrite (proj2 (readArray_Some _ _ _) Harr). simpl.
  apply mapM_Some. eapply Forall2_impl; [done|].
  intros l e Hl. unfold Heap.readTicketStat. by rewrite Hl.
Qed.

Lemma analyzeCommits_ok h cl cs :
  Heap.readCommits h cl = Some cs ->
  exists r h',
    Heap.analyzeCommits ticketRegExp cl h = Some (r, h') /\
    Heap.preserved h h' /\
    Heap.readResult h' r = Some (reduceCommits ticketRegExp cs).
Proof.
  intros Hcs. unfold Heap.readCommits in Hcs.
  destruct (Heap.readArray h cl) as [cls|] eqn:Hcl; [|done].
  simpl in Hcs. apply mapM_Some in Hcs. apply readArray_Some in Hcl.
  unfold Heap.analyzeCommits.
  unfold Heap.bind at 1. unfold Heap.loadArray, Heap.bind at 1, Heap.load.
  rewrite Hcl. simpl. unfold Heap.bind, Heap.alloc.
  destruct (reduce_ok h cls cs (h ++ [Heap.OArray []])%list (length h) [] Hcs)
    as (h' & Hrun & Hinv).
  { split; [apply preserved_alloc, preserved_refl|]. split; [done|].
    exists []. split; [by rewrite list_lookup_middle|].
    split; [constructor|]. split; [constructor|apply NoDup_nil_2]. }
  rewrite Hrun. exists (length h), h'. split; [done|].
  split; [by destruct Hinv|]. by eapply accInv_readResult.
Qed.

End RunFacts.

End HeapFacts.
(** ** Scenarios *)

Example default_regex :
  RegExp.create defaultTicketPattern = Some defaultTicketRegExp.
Proof. reflexivity. Qed.

(** The scenario of the specification. *)
Example scenario_two_commits :
  analyzeCommits
    [ mkCommit "fix PROJ-1" [mkFileStat 5 2];
      mkCommit "PROJ-1 and PROJ-2" [mkFileStat 1 0] ]
    defaultTicketPattern
  = Returned [ mkTicketStat "PROJ-1" 6 2 8 2; mkTicketStat "PROJ-2" 1 0 1 1 ].
Proof. reflexivity. Qed.

Example scenario_empty :
  analyzeCommits [] defaultTicketPattern = Returned [].
Proof. reflexivity. Qed.

(** ** The properties of the specification *)

Section Claims.

Variable ticketRegExp : string -> option (list string).

Abbreviation result := (reduceCommits ticketRegExp).

(** C1. [commitReducer] handles the mentions of a commit one by one,
    duplicates included: when the message of [c] mentions the ticket [t]
    [k] times ([k] = 2 for a ticket mentioned twice), the entry of [t]
    after the commit is the entry before it (zeros when there was none)
    with the short stat of [c] added [k] times to [added], [deleted] and,
    as their sum, to [total], and with [commits] increased by [k]. *)
Theorem commitReducer_counts_each_mention
    (acc : list TicketStat) (c : Commit) (t : string) (k : nat) :
  mentionCount t (ticketsMatchedInCommit ticketRegExp c) = k ->
  (0 < k)%nat ->
  exists e',
    List.find (isTicket t) (commitReducer ticketRegExp acc c) = Some e' /\
    ticket e' = t /\
    added e' = added (entryOrZero t (List.find (isTicket t) acc))
               + Z.of_nat k * ss_added (shortStat c) /\
    deleted e' = deleted (entryOrZero t (List.find (isTicket t) acc))
                 + Z.of_nat k * ss_deleted (shortStat c) /\
    total e' = total (entryOrZero t (List.find (isTicket t) acc))
               + Z.of_nat k * (ss_added (shortStat c) + ss_deleted (shortStat c)) /\
    commits e' = commits (entryOrZero t (List.find (isTicket t) acc))
                 + Z.of_nat k.
Proof.
  intros Hk Hpos. unfold commitReducer.
  rewrite find_fold_ticketStep, Hk.
  destruct (iter_credit (shortStat c) t k (List.find (isTicket t) acc) Hpos)
    as (e' & He' & Ht & Hrest).
  exists e'. split; [done|]. split; [|done].
  rewrite Ht. destruct (List.find (isTicket t) acc) as [e|] eqn:Hf; [|done].
  simpl. by apply find_isTicket_Some in Hf as [? _].
Qed.

(** C2, as amended. In the result, the [commits] field of every entry is
    the total number of mentions of its ticket over all the messages (a
    commit that mentions the ticket several times counts several times). *)
Theorem commits_counts_mentions (cs : list Commit) :
  Forall (fun e => commits e =
                   Z.of_nat (mentionCount (ticket e) (allMentions ticketRegExp cs)))
         (result cs).
Proof.
  apply Forall_forall. intros e He%list_elem_of_In.
  assert (List.NoDup (map ticket (result cs))) as Hnd.
  { unfold reduceCommits. rewrite fold_commitReducer_attribute.
    apply (fold_attribute_inv (fun acc => List.NoDup (map ticket acc))).
    - intros. by apply NoDup_ticketStep.
    - constructor. }
  pose proof (find_unique _ _ Hnd He) as Hf.
  unfold reduceCommits in Hf.
  rewrite fold_commitReducer_attribute, find_fold_attribute in Hf.
  pose proof (commitsOf_fold (ticket e) (attributions ticketRegExp cs) None)
    as Hc.
  simpl in Hf. rewrite Hf in Hc. simpl in Hc.
  by rewrite map_fst_attributions in Hc.
Qed.

(** C3. [total = added + deleted] holds for every entry of the accumulator
    before the first commit and after every commit, and so for every entry
    of the result, which is the last of these states. *)
Theorem total_is_added_plus_deleted (cs : list Commit) :
  Forall (Forall totalOk) (states ticketRegExp cs) /\
  last (states ticketRegExp cs) = Some (result cs) /\
  Forall totalOk (result cs).
Proof.
  assert (forall acc c, Forall totalOk acc ->
            Forall totalOk (commitReducer ticketRegExp acc c)) as Hstep.
  { intros acc c Hacc. unfold commitReducer.
    rewrite fold_ticketStep_attribute.
    apply (fold_attribute_inv (Forall totalOk)); [|done].
    intros. by apply totalOk_ticketStep. }
  assert (Forall (Forall totalOk) (states ticketRegExp cs)) as Hall.
  { apply statesFrom_Forall; [constructor|done]. }
  split; [done|]. split; [apply statesFrom_last|].
  pose proof (statesFrom_last ticketRegExp cs []) as Hlast.
  rewrite Forall_forall in Hall. apply Hall.
  apply last_Some_elem_of in Hlast. done.
Qed.

(** C4. For a commit sequence split in two, merging the two results by
    pointwise addition gives a collection with one entry per ticket in
    which every ticket has the entry that the aggregation of the whole
    sequence gives (and none where it has none). *)
Theorem merge_of_split_is_whole (xs ys : list Commit) :
  List.NoDup (map ticket (merge (result xs) (result ys))) /\
  forall t : string,
    List.find (isTicket t) (merge (result xs) (result ys)) =
    List.find (isTicket t) (result (xs ++ ys)).
Proof.
  assert (forall cs, List.NoDup (map ticket (result cs))) as Hnd.
  { intros cs. unfold reduceCommits. rewrite fold_commitReducer_attribute.
    apply (fold_attribute_inv (fun acc => List.NoDup (map ticket acc))).
    - intros. by apply NoDup_ticketStep.
    - constructor. }
  split; [by apply NoDup_keys_merge|]. intros t.
  rewrite find_merge, reduceCommits_app.
  rewrite fold_commitReducer_attribute, find_fold_attribute.
  unfold reduceCommits at 2.
  rewrite fold_commitReducer_attribute, find_fold_attribute. simpl.
  rewrite <- fold_creditIf_mergeOpt.
  by destruct (List.find (isTicket t) (result xs)).
Qed.

(** C5. The totals of the result add up to the sum, over the commits, of
    the number of mentions in the message times the lines the commit added
    and deleted over its files. *)
Theorem sum_of_totals (cs : list Commit) :
  sumZ (map total (result cs)) =
  sumZ (map (fun c => Z.of_nat (length (ticketsMatchedInCommit ticketRegExp c))
                      * churn c) cs).
Proof.
  unfold reduceCommits.
  assert (forall acc,
    sumZ (map total (fold_left (commitReducer ticketRegExp) cs acc)) =
    sumZ (map total acc) +
    sumZ (map (fun c => Z.of_nat (length (ticketsMatchedInCommit ticketRegExp c))
                        * churn c) cs)) as H.
  { induction cs as [|c cs' IH]; intros acc; simpl; [lia|].
    rewrite IH. unfold commitReducer at 1.
    rewrite sum_total_fold_ticketStep, shortStat_churn. lia. }
  rewrite H. simpl. lia.
Qed.

(** C8. The accumulator never holds two entries with the same ticket:
    before the first commit, after every commit, and in the result. *)
Theorem one_entry_per_ticket (cs : list Commit) :
  Forall (fun acc => List.NoDup (map ticket acc)) (states ticketRegExp cs) /\
  List.NoDup (map ticket (result cs)).
Proof.
  assert (forall acc c, List.NoDup (map ticket acc) ->
            List.NoDup (map ticket (commitReducer ticketRegExp acc c))) as Hstep.
  { intros acc c Hacc. unfold commitReducer.
    rewrite fold_ticketStep_attribute.
    apply (fold_attribute_inv (fun acc => List.NoDup (map ticket acc)));
      [|done].
    intros. by apply NoDup_ticketStep. }
  assert (Forall (fun acc => List.NoDup (map ticket acc))
            (states ticketRegExp cs)) as Hall.
  { apply statesFrom_Forall; [constructor|done]. }
  split; [done|].
  pose proof (statesFrom_last ticketRegExp cs []) as Hlast.
  rewrite Forall_forall in Hall. apply Hall.
  by apply last_Some_elem_of in Hlast.
Qed.

(** C9. The result lists the entries in the order of the first mention of
    their tickets: entry [i] comes before entry [j] exactly when the first
    mention of the ticket of [i], scanning the commits in input order and
    the matches of each message from left to right, comes before the first
    mention of the ticket of [j]. *)
Theorem first_sighting_order
    (cs : list Commit) (i j : nat) (ei ej : TicketStat) :
  result cs !! i = Some ei ->
  result cs !! j = Some ej ->
  (i < j)%nat <->
  (firstMention (ticket ei) (allMentions ticketRegExp cs)
   < firstMention (ticket ej) (allMentions ticketRegExp cs))%nat.
Proof.
  intros Hi Hj.
  assert (ordered (allMentions ticketRegExp cs) (map ticket (result cs)))
    as [_ Hord].
  { unfold reduceCommits.
    rewrite fold_commitReducer_attribute, map_ticket_fold_attribute.
    rewrite map_fst_attributions.
    apply (firstSeen_ordered (allMentions ticketRegExp cs) [] []).
    split; [done|]. intros ? ? ? ? H. by rewrite lookup_nil in H. }
  assert (map ticket (result cs) !! i = Some (ticket ei)) as Hki
    by (change (map ticket) with (fmap (M:=list) ticket);
        by rewrite list_lookup_fmap, Hi).
  assert (map ticket (result cs) !! j = Some (ticket ej)) as Hkj
    by (change (map ticket) with (fmap (M:=list) ticket);
        by rewrite list_lookup_fmap, Hj).
  split; [by apply Hord|].
  intros Hlt. destruct (Nat.lt_trichotomy i j) as [?|[->|Hji]]; [done| |].
  - rewrite Hi in Hj. injection Hj as <-. lia.
  - pose proof (Hord j i _ _ Hkj Hki Hji). lia.
Qed.

(** C10. A run on a store that holds the commit sequence [cs] at [cl]
    returns, leaves every object that was in the store as it was (the input
    array, every commit record, its message, its [stat] array and every
    file entry), so that the store still holds [cs] at [cl], and the array
    it returns is the value-level result. *)
Theorem analyzeCommits_preserves_input
    (h : list Heap.object) (cl : nat) (cs : list Commit) :
  Heap.readCommits h cl = Some cs ->
  exists r h',
    Heap.analyzeCommits ticketRegExp cl h = Some (r, h') /\
    Heap.preserved h h' /\
    Heap.readCommits h' cl = Some cs /\
    Heap.readResult h' r = Some (result cs).
Proof.
  intros Hcs.
  destruct (HeapFacts.analyzeCommits_ok ticketRegExp h cl cs Hcs)
    as (r & h' & Hrun & Hp & Hres).
  exists r, h'. split; [done|]. split; [done|]. split; [|done].
  by eapply HeapFacts.readCommits_preserved.
Qed.

End Claims.

Lemma commitReducer_counts_each_mention_witness :
  mentionCount "PROJ-1"
    (ticketsMatchedInCommit (RegExp.match_ defaultTicketRegExp) revertCommit)
  = 2%nat /\
  exists e',
    List.find (isTicket "PROJ-1")
      (commitReducer (RegExp.match_ defaultTicketRegExp)
         [mkTicketStat "PROJ-1" 5 2 7 1] revertCommit) = Some e' /\
    ticket e' = "PROJ-1" /\
    added e' = 5 + 2 * 3 /\
    deleted e' = 2 + 2 * 5 /\
    total e' = 7 + 2 * (3 + 5) /\
    commits e' = 1 + 2.
Proof.
  split; [reflexivity|].
  apply (commitReducer_counts_each_mention
           (RegExp.match_ defaultTicketRegExp)
           [mkTicketStat "PROJ-1" 5 2 7 1] revertCommit "PROJ-1" 2%nat);
    [reflexivity | lia].
Defined.

(** C2, as stated, fails: one commit that mentions PROJ-1 twice leaves
    [commits = 2] for PROJ-1, while one commit mentions it. *)
Lemma commits_counts_commits_fails :
  ~ commitsCountsCommits (RegExp.match_ defaultTicketRegExp) [revertCommit].
Proof.
  unfold commitsCountsCommits. intros H.
  apply Forall_forall with (x := mkTicketStat "PROJ-1" 6 10 16 2) in H.
  - vm_compute in H. discriminate H.
  - vm_compute. apply list_elem_of_here.
Qed.

(** C6, as stated, fails: the default pattern matches "see TICKET-42" too. *)
Lemma default_pattern_matches_custom_ticket :
  ~ customMatchesDefaultDoesNot "TICKET-\d+" "see TICKET-42".
Proof. intros [_ H]. vm_compute in H. discriminate H. Qed.

(** C6, as amended. The pattern [TICKET-\d+] applied to "see TICKET-42"
    yields the match "TICKET-42", and so does the default pattern. *)
Theorem custom_and_default_both_match :
  matchPattern "TICKET-\d+" "see TICKET-42" = Returned (Some ["TICKET-42"]) /\
  matchPattern defaultTicketPattern "see TICKET-42"
  = Returned (Some ["TICKET-42"]).
Proof. split; reflexivity. Qed.

(** C7, as stated, fails: a pattern that matches the empty string has one
    (empty) match in the empty message, and the commit then creates an
    entry for the empty ticket. *)
Lemma empty_message_can_match :
  ~ extractsNothing "[A-Z]*" "" /\
  matchPattern "[A-Z]*" "" = Returned (Some [""]) /\
  (forall re, RegExp.create "[A-Z]*" = Some re ->
     commitReducer (RegExp.match_ re) [] (mkCommit "" [mkFileStat 4 1])
     = [mkTicketStat "" 4 1 5 1]).
Proof.
  split; [|split].
  - intros H.
    specialize (H [(RegExp.AClass false [RegExp.CRange "A" "Z"], RegExp.QStar)]
                  eq_refl (or_introl eq_refl)).
    vm_compute in H. discriminate H.
  - reflexivity.
  - intros re Hre. vm_compute in Hre. injection Hre as <-. reflexivity.
Qed.

(** C7, as amended. Whatever the pattern, when it has no match in the
    message of a commit ([match] answers [null]; for an empty message this
    means that the pattern does not match the empty string), extraction
    returns the empty sequence and the commit leaves the accumulator as it
    was: no entry changes and none is created. *)
Theorem no_match_no_contribution
    (ticketRegExp : string -> option (list string))
    (acc : list TicketStat) (c : Commit) :
  ticketRegExp (message c) = None ->
  ticketsMatchedInCommit ticketRegExp c = [] /\
  commitReducer ticketRegExp acc c = acc /\
  forall t, List.find (isTicket t) (commitReducer ticketRegExp acc c) =
            List.find (isTicket t) acc.
Proof.
  intros Hnone.
  assert (ticketsMatchedInCommit ticketRegExp c = []) as Hts
    by (unfold ticketsMatchedInCommit; by rewrite Hnone).
  assert (commitReducer ticketRegExp acc c = acc) as Hacc
    by (unfold commitReducer; by rewrite Hts).
  split; [done|]. split; [done|]. intros t. by rewrite Hacc.
Qed.

Lemma no_match_no_contribution_witness :
  RegExp.match_ defaultTicketRegExp
    (message (mkCommit "typo in proj-12" [mkFileStat 1 1])) = None /\
  ticketsMatchedInCommit (RegExp.match_ defaultTicketRegExp)
    (mkCommit "typo in proj-12" [mkFileStat 1 1]) = [] /\
  commitReducer (RegExp.match_ defaultTicketRegExp)
    [mkTicketStat "PROJ-1" 5 2 7 1] (mkCommit "typo in proj-12" [mkFileStat 1 1])
  = [mkTicketStat "PROJ-1" 5 2 7 1] /\
  forall t,
    List.find (isTicket t)
      (commitReducer (RegExp.match_ defaultTicketRegExp)
         [mkTicketStat "PROJ-1" 5 2 7 1]
         (mkCommit "typo in proj-12" [mkFileStat 1 1]))
    = List.find (isTicket t) [mkTicketStat "PROJ-1" 5 2 7 1].
Proof.
  split; [reflexivity|].
  apply (no_match_no_contribution (RegExp.match_ defaultTicketRegExp)
           [mkTicketStat "PROJ-1" 5 2 7 1]
           (mkCommit "typo in proj-12" [mkFileStat 1 1])).
  reflexivity.
Defined.

Lemma first_sighting_order_witness :
  reduceCommits (RegExp.match_ defaultTicketRegExp) scenarioCommits !! 0%nat
  = Some (mkTicketStat "PROJ-1" 6 2 8 2) /\
  reduceCommits (RegExp.match_ defaultTicketRegExp) scenarioCommits !! 1%nat
  = Some (mkTicketStat "PROJ-2" 1 0 1 1) /\
  ((0 < 1)%nat <->
   (firstMention "PROJ-1"
      (allMentions (RegExp.match_ defaultTicketRegExp) scenarioCommits)
    < firstMention "PROJ-2"
        (allMentions (RegExp.match_ defaultTicketRegExp) scenarioCommits))%nat).
Proof.
  split; [reflexivity|]. split; [reflexivity|].
  apply (first_sighting_order (RegExp.match_ defaultTicketRegExp)
           scenarioCommits 0 1
           (mkTicketStat "PROJ-1" 6 2 8 2) (mkTicketStat "PROJ-2" 1 0 1 1));
    reflexivity.
Defined.

Example scenario_on_the_store :
  Heap.analyzeCommits (RegExp.match_ defaultTicketRegExp) 6 scenarioHeap =
  Some (7%nat,
        (scenarioHeap ++
         [ Heap.OArray [8%nat; 9%nat];
           Heap.OTicketStat (mkTicketStat "PROJ-1" 6 2 8 2);
           Heap.OTicketStat (mkTicketStat "PROJ-2" 1 0 1 1) ])%list).
Proof. reflexivity. Qed.

Lemma analyzeCommits_preserves_input_witness :
  Heap.readCommits scenarioHeap 6 = Some scenarioCommits /\
  exists r h',
    Heap.analyzeCommits (RegExp.match_ defaultTicketRegExp) 6 scenarioHeap
    = Some (r, h') /\
    Heap.preserved scenarioHeap h' /\
    Heap.readCommits h' 6 = Some scenarioCommits /\
    Heap.readResult h' r
    = Some (reduceCommits (RegExp.match_ defaultTicketRegExp) scenarioCommits).
Proof.
  split; [reflexivity|].
  apply (analyzeCommits_preserves_input (RegExp.match_ defaultTicketRegExp)
           scenarioHeap 6 scenarioCommits).
  reflexivity.
Defined.

(** ** Further properties of the aggregation *)

Lemma shortStat_lines c :
  ss_added (shortStat c) = linesAdded c /\
  ss_deleted (shortStat c) = linesDeleted c.
Proof.
  unfold shortStat, linesAdded, linesDeleted.
  destruct (shortStat_fold (stat c)
              {| ss_added := 0; ss_deleted := 0; ss_total := Some 0 |})
    as [-> ->]. simpl. lia.
Qed.

Lemma churn_lines c : churn c = linesAdded c + linesDeleted c.
Proof.
  unfold churn, linesAdded, linesDeleted.
  induction (stat c) as [|f l IH]; simpl; lia.
Qed.

Lemma ss_total_fold l a :
  ss_total (fold_left statReducer l a) =
  match l with [] => ss_total a | _ => None end.
Proof.
  revert a. induction l as [|f l IH]; intros a; [done|].
  simpl. rewrite IH. by destruct l.
Qed.

Lemma sumZ_map_nonneg {A} (f : A -> Z) l :
  Forall (fun x => 0 <= f x) l -> 0 <= sumZ (map f l).
Proof. induction 1; simpl; lia. Qed.

Lemma sumZ_map_zero {A} (f : A -> Z) l :
  Forall (fun x => f x = 0) l -> sumZ (map f l) = 0.
Proof. induction 1; simpl; lia. Qed.

Lemma sumZ_map_perm {A} (f : A -> Z) l l' :
  Permutation l l' -> sumZ (map f l) = sumZ (map f l').
Proof. induction 1; simpl; lia. Qed.

Section ClosedFormFacts.

Variable ticketRegExp : string -> option (list string).

Lemma totalMentions_nonneg t cs : 0 <= totalMentions ticketRegExp t cs.
Proof. apply sumZ_map_nonneg, Forall_forall. intros. lia. Qed.

Lemma totalMentions_zero t cs :
  totalMentions ticketRegExp t cs = 0 ->
  Forall (fun c => mentionsIn ticketRegExp t c = O) cs.
Proof.
  induction cs as [|c cs IH]; [constructor|].
  unfold totalMentions. simpl. fold (totalMentions ticketRegExp t cs).
  pose proof (totalMentions_nonneg t cs). intros H0.
  constructor; [lia|]. apply IH. lia.
Qed.

Lemma expectedEntry_zero t cs :
  totalMentions ticketRegExp t cs = 0 ->
  expectedEntry ticketRegExp t cs = mkTicketStat t 0 0 0 0.
Proof.
  intros H0. pose proof (totalMentions_zero t cs H0) as Hall.
  unfold expectedEntry. rewrite H0.
  f_equal; apply sumZ_map_zero; eapply Forall_impl; try exact Hall;
    intros c Hc; simpl in Hc; rewrite Hc; lia.
Qed.

Lemma expectedEntry_snoc t cs c :
  expectedEntry ticketRegExp t (cs ++ [c]) =
  {| ticket := t;
     added := added (expectedEntry ticketRegExp t cs)
              + Z.of_nat (mentionsIn ticketRegExp t c) * ss_added (shortStat c);
     deleted := deleted (expectedEntry ticketRegExp t cs)
                + Z.of_nat (mentionsIn ticketRegExp t c) * ss_deleted (shortStat c);
     total := total (expectedEntry ticketRegExp t cs)
              + Z.of_nat (mentionsIn ticketRegExp t c)
                * (ss_added (shortStat c) + ss_deleted (shortStat c));
     commits := commits (expectedEntry ticketRegExp t cs)
                + Z.of_nat (mentionsIn ticketRegExp t c) |}.
Proof.
  rewrite shortStat_churn. destruct (shortStat_lines c) as [-> ->].
  unfold expectedEntry, totalMentions. simpl.
  rewrite !map_app, !sumZ_app. simpl. f_equal; lia.
Qed.

Lemma find_result_closed t cs :
  List.find (isTicket t) (reduceCommits ticketRegExp cs) =
  if (totalMentions ticketRegExp t cs =? 0)%Z then None
  else Some (expectedEntry ticketRegExp t cs).
Proof.
  induction cs as [|c cs IH] using rev_ind; [done|].
  rewrite reduceCommits_app. cbn [fold_left]. unfold commitReducer.
  rewrite find_fold_ticketStep. fold (mentionsIn ticketRegExp t c).
  rewrite IH. clear IH.
  pose proof (totalMentions_nonneg t cs) as Hnn.
  assert (totalMentions ticketRegExp t (cs ++ [c]) =
          totalMentions ticketRegExp t cs
          + Z.of_nat (mentionsIn ticketRegExp t c)) as ->.
  { unfold totalMentions. rewrite map_app, sumZ_app. simpl. lia. }
  rewrite expectedEntry_snoc.
  destruct (mentionsIn ticketRegExp t c) as [|k] eqn:Hk.
  - simpl Nat.iter. rewrite Z.add_0_r.
    destruct (totalMentions ticketRegExp t cs =? 0)%Z; [done|].
    f_equal. unfold expectedEntry. simpl. f_equal; lia.
  - assert ((totalMentions ticketRegExp t cs + Z.of_nat (S k) =? 0)%Z = false)
      as -> by (apply Z.eqb_neq; lia).
    destruct (totalMentions ticketRegExp t cs =? 0)%Z eqn:H0.
    + apply Z.eqb_eq in H0. rewrite (expectedEntry_zero t cs H0).
      destruct (iter_credit (shortStat c) t (S k) None)
        as (e' & -> & Ht & Ha & Hd & Htot & Hc); [lia|].
      f_equal. destruct e' as [t' a' d' tot' c']. simpl in *.
      by rewrite Ht, Ha, Hd, Htot, Hc.
    + destruct (iter_credit (shortStat c) t (S k)
                  (Some (expectedEntry ticketRegExp t cs)))
        as (e' & -> & Ht & Ha & Hd & Htot & Hc); [lia|].
      f_equal. destruct e' as [t' a' d' tot' c'].
      unfold entryOrZero in *. simpl in Ht, Ha, Hd, Htot, Hc.
      simpl. by rewrite Ht, Ha, Hd, Htot, Hc.
Qed.

Lemma totalMentions_count t cs :
  totalMentions ticketRegExp t cs =
  Z.of_nat (mentionCount t (allMentions ticketRegExp cs)).
Proof.
  unfold totalMentions, allMentions, mentionCount.
  induction cs as [|c cs IH]; simpl; [done|].
  rewrite count_occ_app, IH. unfold mentionsIn, mentionCount. lia.
Qed.

Lemma result_keys_NoDup cs :
  List.NoDup (map ticket (reduceCommits ticketRegExp cs)).
Proof.
  unfold reduceCommits. rewrite fold_commitReducer_attribute.
  apply (fold_attribute_inv (fun acc => List.NoDup (map ticket acc))).
  - intros. by apply NoDup_ticketStep.
  - constructor.
Qed.

Lemma result_entry_closed cs e :
  In e (reduceCommits ticketRegExp cs) ->
  totalMentions ticketRegExp (ticket e) cs <> 0 /\
  e = expectedEntry ticketRegExp (ticket e) cs.
Proof.
  intros He.
  pose proof (find_unique _ _ (result_keys_NoDup cs) He) as Hf.
  rewrite find_result_closed in Hf.
  destruct (totalMentions ticketRegExp (ticket e) cs =? 0)%Z eqn:H0; [done|].
  apply Z.eqb_neq in H0. by injection Hf as <-.
Qed.

End ClosedFormFacts.

(** The keys after a run of mentions: the keys before, then the new ones. *)

Lemma notIn_true ks x : notIn ks x = true <-> ~ In x ks.
Proof.
  unfold notIn. rewrite negb_true_iff, <- not_true_iff_false.
  split; intros H Hin; apply H.
  - apply existsb_exists. exists x. split; [done|apply String.eqb_refl].
  - apply existsb_exists in Hin as [y [Hy ->%String.eqb_eq]]. done.
Qed.

Lemma existsb_eqb_in t ks : existsb (String.eqb t) ks = true <-> In t ks.
Proof.
  rewrite existsb_exists. split.
  - by intros [x [Hx ->%String.eqb_eq]].
  - intros H. exists t. split; [done|apply String.eqb_refl].
Qed.

Lemma existsb_eqb_iff t ks ks' :
  (In t ks <-> In t ks') ->
  existsb (String.eqb t) ks = existsb (String.eqb t) ks'.
Proof.
  intros H. apply eq_true_iff_eq. by rewrite !existsb_eqb_in.
Qed.

Lemma firstSeen_filter ts ks ks' :
  firstSeen ts (ks ++ List.filter (notIn ks) ks') =
  (ks ++ List.filter (notIn ks) (firstSeen ts ks'))%list.
Proof.
  revert ks'. induction ts as [|t ts IH]; intros ks'; simpl; [done|].
  destruct (existsb (String.eqb t) ks') eqn:Hin'.
  - assert (existsb (String.eqb t) (ks ++ List.filter (notIn ks) ks') = true)
      as ->; [|apply IH].
    apply existsb_eqb_in. apply existsb_eqb_in in Hin'.
    rewrite in_app_iff, filter_In, notIn_true.
    destruct (in_dec string_dec t ks); tauto.
  - apply not_true_iff_false in Hin'. rewrite existsb_eqb_in in Hin'.
    destruct (in_dec string_dec t ks) as [Hks|Hks].
    + assert (existsb (String.eqb t) (ks ++ List.filter (notIn ks) ks') = true)
        as -> by (apply existsb_eqb_in, in_app_iff; by left).
      rewrite <- IH. f_equal. f_equal. rewrite List.filter_app. simpl.
      assert (notIn ks t = false) as ->; [|by rewrite app_nil_r].
      apply not_true_iff_false. rewrite notIn_true. tauto.
    + assert (existsb (String.eqb t) (ks ++ List.filter (notIn ks) ks') = false)
        as ->.
      { apply not_true_iff_false. rewrite existsb_eqb_in, in_app_iff, filter_In.
        tauto. }
      rewrite <- IH. f_equal. rewrite List.filter_app. simpl.
      assert (notIn ks t = true) as -> by by apply notIn_true.
      by rewrite <- app_assoc.
Qed.

Lemma firstSeen_split ts ks :
  firstSeen ts ks = (ks ++ List.filter (notIn ks) (firstSeen ts []))%list.
Proof.
  rewrite <- firstSeen_filter. simpl. by rewrite app_nil_r.
Qed.

Lemma firstSeen_elements ts x : In x (firstSeen ts []) <-> In x ts.
Proof.
  destruct (firstSeen_ordered ts [] []) as [H _].
  - split; [done|]. intros ? ? ? ? H. by rewrite lookup_nil in H.
  - apply H.
Qed.

Lemma existsb_isTicket b l :
  existsb (isTicket (ticket b)) l =
  existsb (String.eqb (ticket b)) (map ticket l).
Proof.
  induction l as [|a l IH]; simpl; [done|].
  rewrite IH. unfold isTicket. by rewrite String.eqb_sym.
Qed.

Lemma map_ticket_filter (ks : list string) (l : list TicketStat) r :
  map ticket l = ks ->
  map ticket (List.filter (fun b => negb (existsb (isTicket (ticket b)) l)) r)
  = List.filter (notIn ks) (map ticket r).
Proof.
  intros <-. induction r as [|b r IH]; simpl; [done|].
  unfold notIn at 1. rewrite <- existsb_isTicket.
  destruct (negb (existsb (isTicket (ticket b)) l)); simpl; by rewrite IH.
Qed.

Lemma map_ticket_merge l r :
  map ticket (merge l r) =
  (map ticket l ++ List.filter (notIn (map ticket l)) (map ticket r))%list.
Proof.
  unfold merge. rewrite map_app, map_map.
  rewrite (map_ext (fun a => ticket (mergeEntry r a)) ticket)
    by apply ticket_mergeEntry.
  by rewrite (map_ticket_filter (map ticket l)).
Qed.

(** Two collections with the same keys, in the same order and without
    repetition, that agree on every lookup are equal. *)
Lemma eq_of_keys_find (l1 l2 : list TicketStat) :
  map ticket l1 = map ticket l2 ->
  List.NoDup (map ticket l1) ->
  (forall t, List.find (isTicket t) l1 = List.find (isTicket t) l2) ->
  l1 = l2.
Proof.
  revert l2. induction l1 as [|a l1 IH]; intros [|b l2] Hk Hnd Hf;
    simpl in Hk; try done.
  injection Hk as Hab Hk. inversion Hnd as [|? ? Hnotin Hnd']; subst.
  assert (a = b) as <-.
  { specialize (Hf (ticket a)). simpl in Hf.
    assert (isTicket (ticket a) a = true) as Ha by by apply isTicket_true.
    assert (isTicket (ticket a) b = true) as Hb by by apply isTicket_true.
    rewrite Ha, Hb in Hf. by injection Hf. }
  f_equal. apply IH; [done|done|].
  intros t. specialize (Hf t). simpl in Hf.
  destruct (isTicket t a) eqn:Hta; [|done].
  apply isTicket_true in Hta. subst t.
  assert (List.find (isTicket (ticket a)) l1 = None) as ->
    by by apply find_isTicket_None.
  symmetry. apply find_isTicket_None. by rewrite <- Hk.
Qed.

Section AggregationProperties.

Variable ticketRegExp : string -> option (list string).

Abbreviation result := (reduceCommits ticketRegExp).

(** X1. The entry of a ticket in the result is determined by sums over the
    commits: there is none when no message mentions the ticket; otherwise
    [added], [deleted] and [total] are the sums of the lines added, deleted
    and changed by each commit, each weighted by the number of times the
    message of the commit mentions the ticket, and [commits] is the sum of
    these numbers. *)
Theorem entry_is_weighted_sum (cs : list Commit) (t : string) :
  List.find (isTicket t) (result cs) =
  if (totalMentions ticketRegExp t cs =? 0)%Z then None
  else Some (expectedEntry ticketRegExp t cs).
Proof. apply find_result_closed. Qed.

(** X2. The result has an entry for a ticket exactly when some message
    mentions the ticket. *)
Theorem result_keys_are_the_mentions (cs : list Commit) (t : string) :
  In t (map ticket (result cs)) <-> In t (allMentions ticketRegExp cs).
Proof.
  unfold reduceCommits.
  rewrite fold_commitReducer_attribute, map_ticket_fold_attribute.
  rewrite map_fst_attributions. apply firstSeen_elements.
Qed.

(** X3. The order of the commits only matters for the order of the
    entries: two sequences with the same commits in a different order give
    every ticket the same entry. *)
Theorem commit_order_does_not_change_entries
    (cs cs' : list Commit) (t : string) :
  Permutation cs cs' ->
  List.find (isTicket t) (result cs) = List.find (isTicket t) (result cs').
Proof.
  intros Hp. rewrite !find_result_closed.
  unfold expectedEntry, totalMentions.
  by rewrite !(sumZ_map_perm _ cs cs' Hp).
Qed.

(** X4. A commit leaves the entry of every ticket that its message does
    not mention as it was (and creates none for it). *)
Theorem commitReducer_keeps_unmentioned
    (acc : list TicketStat) (c : Commit) (t : string) :
  mentionsIn ticketRegExp t c = O ->
  List.find (isTicket t) (commitReducer ticketRegExp acc c) =
  List.find (isTicket t) acc.
Proof.
  intros H0. unfold commitReducer. rewrite find_fold_ticketStep.
  fold (mentionsIn ticketRegExp t c). by rewrite H0.
Qed.

(** X5. A commit never removes or moves an entry: the tickets of the
    accumulator after the commit are the tickets before it, in the same
    order, followed by the tickets that the message mentions and that had
    no entry, each once. *)
Theorem commitReducer_appends_new_keys (acc : list TicketStat) (c : Commit) :
  exists new,
    map ticket (commitReducer ticketRegExp acc c) =
      (map ticket acc ++ new)%list /\
    List.NoDup new /\
    forall t, In t new <->
              In t (ticketsMatchedInCommit ticketRegExp c) /\
              ~ In t (map ticket acc).
Proof.
  exists (List.filter (notIn (map ticket acc))
            (firstSeen (ticketsMatchedInCommit ticketRegExp c) [])).
  split; [|split].
  - unfold commitReducer.
    rewrite fold_ticketStep_attribute, map_ticket_fold_attribute.
    rewrite map_map. simpl. rewrite map_id. apply firstSeen_split.
  - apply List.NoDup_filter.
    pose proof (map_ticket_fold_attribute
                  (map (fun t => (t, shortStat c))
                       (ticketsMatchedInCommit ticketRegExp c)) []) as Hk.
    rewrite map_map in Hk. simpl in Hk. rewrite map_id in Hk.
    rewrite <- Hk.
    apply (fold_attribute_inv (fun acc => List.NoDup (map ticket acc))).
    + intros. by apply NoDup_ticketStep.
    + constructor.
  - intros t. rewrite filter_In, notIn_true, firstSeen_elements. tauto.
Qed.

(** X6. Every entry of the result has [commits] at least 1; and when no
    file of the input has a negative count, no entry has a negative
    [added], [deleted] or [total]. *)
Theorem entries_are_positive (cs : list Commit) :
  Forall (fun e => 1 <= commits e) (result cs) /\
  (nonNegativeStats cs ->
   Forall (fun e => 0 <= added e /\ 0 <= deleted e /\ 0 <= total e)
          (result cs)).
Proof.
  split.
  - apply Forall_forall. intros e He%list_elem_of_In.
    destruct (result_entry_closed ticketRegExp cs e He) as [Hne ->].
    simpl. pose proof (totalMentions_nonneg ticketRegExp (ticket e) cs). lia.
  - intros Hnn. apply Forall_forall. intros e He%list_elem_of_In.
    destruct (result_entry_closed ticketRegExp cs e He) as [_ ->].
    unfold nonNegativeStats in Hnn.
    assert (Forall (fun c => 0 <= linesAdded c /\ 0 <= linesDeleted c) cs)
      as Hlines.
    { eapply Forall_impl; [exact Hnn|]. intros c Hc. simpl in Hc.
      split; apply sumZ_map_nonneg; eapply Forall_impl; try exact Hc;
        simpl; tauto. }
    simpl. repeat split; apply sumZ_map_nonneg;
      (eapply Forall_impl; [exact Hlines|]); intros c [Ha Hd]; simpl.
    + apply Z.mul_nonneg_nonneg; lia.
    + apply Z.mul_nonneg_nonneg; lia.
    + apply Z.mul_nonneg_nonneg; [lia|]. rewrite churn_lines. lia.
Qed.

(** X7. Aggregating two consecutive parts of a commit sequence and merging
    the two results (entries of the first part first, added pointwise to
    those of the second part, then the entries only the second part has)
    gives exactly the result of the whole sequence, entry for entry and in
    the same order. *)
Theorem merge_reproduces_sequential_result (xs ys : list Commit) :
  merge (result xs) (result ys) = result (xs ++ ys).
Proof.
  apply eq_of_keys_find.
  - rewrite map_ticket_merge, reduceCommits_app.
    rewrite fold_commitReducer_attribute, map_ticket_fold_attribute.
    rewrite firstSeen_split. f_equal. f_equal.
    unfold reduceCommits.
    by rewrite fold_commitReducer_attribute, map_ticket_fold_attribute.
  - apply NoDup_keys_merge; apply result_keys_NoDup.
  - intros t. rewrite find_merge, reduceCommits_app.
    rewrite fold_commitReducer_attribute, find_fold_attribute.
    unfold reduceCommits at 2.
    rewrite fold_commitReducer_attribute, find_fold_attribute. simpl.
    rewrite <- fold_creditIf_mergeOpt.
    by destruct (List.find (isTicket t) (result xs)).
Qed.

End AggregationProperties.

(** X8. The short stat of a commit is the sum of the added and of the
    deleted counts of its files; both are 0 for a commit without files,
    which is also the only case in which the [total: 0] of the seed object
    survives. *)
Theorem shortStat_sums_the_files (c : Commit) :
  ss_added (shortStat c) = linesAdded c /\
  ss_deleted (shortStat c) = linesDeleted c /\
  ss_total (shortStat c) = match stat c with [] => Some 0 | _ => None end.
Proof.
  destruct (shortStat_lines c) as [Ha Hd]. split; [done|]. split; [done|].
  unfold shortStat. by rewrite ss_total_fold.
Qed.

Lemma commit_order_does_not_change_entries_witness :
  Permutation scenarioCommits (rev scenarioCommits) /\
  List.find (isTicket "PROJ-1")
    (reduceCommits (RegExp.match_ defaultTicketRegExp) scenarioCommits)
  = List.find (isTicket "PROJ-1")
      (reduceCommits (RegExp.match_ defaultTicketRegExp) (rev scenarioCommits)).
Proof.
  split; [apply perm_swap|].
  apply (commit_order_does_not_change_entries
           (RegExp.match_ defaultTicketRegExp)
           scenarioCommits (rev scenarioCommits) "PROJ-1").
  apply perm_swap.
Defined.

Lemma commitReducer_keeps_unmentioned_witness :
  mentionsIn (RegExp.match_ defaultTicketRegExp) "PROJ-2" revertCommit = O /\
  List.find (isTicket "PROJ-2")
    (commitReducer (RegExp.match_ defaultTicketRegExp)
       [mkTicketStat "PROJ-1" 5 2 7 1; mkTicketStat "PROJ-2" 1 0 1 1]
       revertCommit)
  = List.find (isTicket "PROJ-2")
      [mkTicketStat "PROJ-1" 5 2 7 1; mkTicketStat "PROJ-2" 1 0 1 1].
Proof.
  split; [reflexivity|].
  apply (commitReducer_keeps_unmentioned (RegExp.match_ defaultTicketRegExp)
           [mkTicketStat "PROJ-1" 5 2 7 1; mkTicketStat "PROJ-2" 1 0 1 1]
           revertCommit "PROJ-2").
  reflexivity.
Defined.

Lemma entries_are_positive_witness :
  nonNegativeStats scenarioCommits /\
  Forall (fun e => 0 <= added e /\ 0 <= deleted e /\ 0 <= total e)
         (reduceCommits (RegExp.match_ defaultTicketRegExp) scenarioCommits).
Proof.
  assert (nonNegativeStats scenarioCommits) as H.
  { unfold nonNegativeStats, scenarioCommits.
    repeat constructor; simpl; lia. }
  split; [exact H|].
  exact (proj2 (entries_are_positive (RegExp.match_ defaultTicketRegExp)
                  scenarioCommits) H).
Defined.

(** ** The ticket extractor *)

Lemma scan_elements re s skip t :
  In t (RegExp.scan re skip s) ->
  exists before s' n,
    s = (before ++ s')%list /\
    RegExp.matchItems re s' = Some n /\
    t = string_of_list_ascii (take n s').
Proof.
  revert skip. induction s as [|c s IH]; intros skip Hin.
  - destruct skip as [|skip]; simpl in Hin; [|done].
    destruct (RegExp.matchItems re []) as [n|] eqn:Hm; [|done].
    destruct Hin as [<-|[]]. by exists [], [], n.
  - destruct skip as [|skip]; simpl in Hin.
    + destruct (RegExp.matchItems re (c :: s)) as [n|] eqn:Hm.
      * destruct Hin as [<-|Hin]; [by exists [], (c :: s), n|].
        destruct (IH _ Hin) as (before & s' & n' & -> & Hm' & ->).
        by exists (c :: before), s', n'.
      * destruct (IH _ Hin) as (before & s' & n' & -> & Hm' & ->).
        by exists (c :: before), s', n'.
    + destruct (IH _ Hin) as (before & s' & n' & -> & Hm' & ->).
      by exists (c :: before), s', n'.
Qed.

Lemma match_elements re message ms t :
  RegExp.match_ re message = Some ms -> In t ms ->
  exists before s' n,
    list_ascii_of_string message = (before ++ s')%list /\
    RegExp.matchItems re s' = Some n /\
    t = string_of_list_ascii (take n s').
Proof.
  unfold RegExp.match_. intros Hm Hin.
  apply (scan_elements re (list_ascii_of_string message) O).
  destruct (RegExp.scan re 0 (list_ascii_of_string message)) eqn:Hs;
    [done|]. injection Hm as <-. exact Hin.
Qed.

Lemma matchStar_Some a k s n :
  RegExp.matchStar a k s = Some n ->
  exists j m, n = (j + m)%nat /\
              forallb (RegExp.atomMatches a) (take j s) = true /\
              k (drop j s) = Some m.
Proof.
  revert n. induction s as [|c s IH]; intros n H; simpl in H.
  - by exists O, n.
  - destruct (RegExp.atomMatches a c) eqn:Hc; [|by exists O, n].
    destruct (RegExp.matchStar a k s) as [n'|] eqn:Hs; [|by exists O, n].
    injection H as <-.
    destruct (IH n' eq_refl) as (j & m & -> & Hall & Hk).
    exists (S j), m. split; [done|]. split; [|done].
    simpl. by rewrite Hc.
Qed.

Lemma forallb_ext_eq {A} (f g : A -> bool) l :
  (forall x, f x = g x) -> forallb f l = forallb g l.
Proof. intros H. induction l as [|x l IH]; simpl; [done|]. by rewrite H, IH. Qed.

Lemma upper_atom c :
  RegExp.atomMatches (RegExp.AClass false [RegExp.CRange "A" "Z"]) c
  = isUpper c.
Proof. unfold RegExp.atomMatches, isUpper. simpl existsb.
  by rewrite orb_false_r. Qed.

Lemma digit_atom c :
  RegExp.atomMatches (RegExp.AClass false [RegExp.CDigit]) c
  = RegExp.isDigit c.
Proof. unfold RegExp.atomMatches. simpl existsb.
  by rewrite orb_false_r. Qed.

Lemma default_match_shape s n :
  RegExp.matchItems defaultTicketRegExp s = Some n ->
  ticketShaped (take n s).
Proof.
  unfold defaultTicketRegExp. cbn [RegExp.matchItems].
  destruct s as [|c s1]; [done|].
  rewrite upper_atom. destruct (isUpper c) eqn:Hc; [|done].
  destruct (RegExp.matchStar _ _ s1) as [n1|] eqn:Hstar; [|done].
  intros [= <-].
  apply matchStar_Some in Hstar as (j & m & -> & Hup & Hk).
  unfold RegExp.matchOne in Hk.
  destruct (drop j s1) as [|x s2] eqn:Hdrop; [done|].
  destruct (RegExp.atomMatches (RegExp.AChar "-") x) eqn:Hx; [|done].
  simpl in Hx. apply Ascii.eqb_eq in Hx. subst x.
  destruct s2 as [|d s3]; [done|].
  rewrite digit_atom in Hk. destruct (RegExp.isDigit d) eqn:Hd; [|done].
  destruct (RegExp.matchStar _ _ s3) as [n3|] eqn:Hstar3; [|done].
  simpl in Hk. injection Hk as <-.
  apply matchStar_Some in Hstar3 as (j' & m' & -> & Hdig & Hk3).
  injection Hk3 as <-.
  exists (c :: take j s1), (d :: take j' s3).
  split; [|split; [done|split; [|split; [done|]]]].
  - rewrite Nat.add_0_r. cbn [take]. f_equal.
    by rewrite <- take_take_drop, Hdrop.
  - simpl. rewrite Hc. simpl.
    rewrite <- Hup. apply forallb_ext_eq. intros. symmetry. apply upper_atom.
  - simpl. rewrite Hd. simpl.
    rewrite <- Hdig. apply forallb_ext_eq. intros. symmetry. apply digit_atom.
Qed.

Lemma result_key_mentioned ticketRegExp cs e :
  In e (reduceCommits ticketRegExp cs) ->
  exists c, In c cs /\ In (ticket e) (ticketsMatchedInCommit ticketRegExp c).
Proof.
  intros He.
  assert (In (ticket e) (allMentions ticketRegExp cs)) as Hm.
  { apply (in_map ticket) in He. revert He. unfold reduceCommits.
    rewrite fold_commitReducer_attribute, map_ticket_fold_attribute.
    rewrite map_fst_attributions. apply firstSeen_elements. }
  unfold allMentions in Hm. apply in_flat_map in Hm. exact Hm.
Qed.

Lemma matched_ticket re c t :
  In t (ticketsMatchedInCommit (RegExp.match_ re) c) ->
  exists before s' n,
    list_ascii_of_string (message c) = (before ++ s')%list /\
    RegExp.matchItems re s' = Some n /\
    t = string_of_list_ascii (take n s').
Proof.
  unfold ticketsMatchedInCommit.
  destruct (RegExp.match_ re (message c)) as [ms|] eqn:Hm; [|done].
  intros Hin. by eapply match_elements.
Qed.

(** X9. With the default pattern the call returns, and the ticket of every
    entry of the result consists of one or more uppercase letters, a
    hyphen and one or more digits. *)
Theorem default_tickets_are_shaped (cs : list Commit) :
  exists r,
    analyzeCommits cs defaultTicketPattern = Returned r /\
    Forall (fun e => ticketShaped (list_ascii_of_string (ticket e))) r.
Proof.
  exists (reduceCommits (RegExp.match_ defaultTicketRegExp) cs).
  split; [reflexivity|].
  apply Forall_forall. intros e He%list_elem_of_In.
  destruct (result_key_mentioned _ _ _ He) as (c & _ & Hin).
  destruct (matched_ticket _ _ _ Hin) as (before & s' & n & _ & Hm & ->).
  rewrite list_ascii_of_string_of_list_ascii.
  by apply default_match_shape.
Qed.

(** ** Further properties of the run on a store *)

Module HeapAllocation.

Lemma length_updateFirst (p : TicketStat -> bool) f l :
  length (updateFirst p f l) = length l.
Proof.
  induction l as [|e l IH]; simpl; [done|].
  destruct (p e); simpl; [done|by rewrite IH].
Qed.

Lemma readResult_preserved h h' l r :
  Heap.preserved h h' ->
  Heap.readResult h l = Some r -> Heap.readResult h' l = Some r.
Proof.
  intros Hp. unfold Heap.readResult.
  destruct (Heap.readArray h l) as [ls|] eqn:Hl; [|done].
  rewrite (HeapFacts.readArray_preserved _ _ _ _ Hp Hl). simpl.
  apply HeapFacts.mapM_preserved. intros l' e. unfold Heap.readTicketStat.
  destruct (h !! l') as [o|] eqn:Hl'; [|done]. by rewrite (Hp _ _ Hl').
Qed.

Section Sizes.

Variable ticketRegExp : string -> option (list string).

(** The store grows by one object for every entry the accumulator gains. *)
Lemma forEachBody_size h0 h accLoc acc ss t h' :
  Heap.accInv h0 h accLoc acc ->
  Heap.forEachBody accLoc ss t h = Some (tt, h') ->
  (length h' + length acc = length h + length (ticketStep ss acc t))%nat.
Proof.
  intros (Hp & Hacc & ls & Harr & Hls & Hfresh & Hnd).
  unfold Heap.forEachBody, ticketStep.
  unfold Heap.bind at 1. unfold Heap.loadArray, Heap.bind, Heap.load.
  rewrite Harr. simpl.
  destruct (List.find (isTicket t) acc) as [e|] eqn:Hf.
  - destruct (HeapFacts.findTicket_Some h t ss ls acc e Hnd Hls Hf)
      as (l & Hfind & Hl & Hin & Hupd).
    rewrite Hfind. unfold Heap.loadTicketStat, Heap.bind, Heap.load.
    rewrite Hl. simpl. unfold Heap.store.
    destruct (l <? length h)%nat; [|done]. intros [= <-].
    rewrite length_insert, length_updateFirst. lia.
  - rewrite (HeapFacts.findTicket_None h t ls acc Hls Hf).
    unfold Heap.alloc, Heap.store. simpl.
    rewrite (lookup_app_l_Some _ _ _ _ Harr). unfold Heap.ret.
    destruct (accLoc <? _)%nat; [|done]. intros [= <-].
    rewrite length_insert, !length_app. simpl. lia.
Qed.

Lemma forEach_size h0 ss ts h accLoc acc h' :
  Heap.accInv h0 h accLoc acc ->
  Heap.forEach accLoc ss ts h = Some (tt, h') ->
  (length h' + length acc =
   length h + length (fold_left (ticketStep ss) ts acc))%nat.
Proof.
  revert h acc. induction ts as [|t ts IH]; intros h acc Hinv; simpl.
  - by intros [= <-].
  - destruct (HeapFacts.forEachBody_ok h0 h accLoc acc ss t Hinv)
      as (h1 & Hrun & Hinv1).
    unfold Heap.bind. rewrite Hrun. intros Hrest.
    pose proof (forEachBody_size _ _ _ _ _ _ _ Hinv Hrun).
    pose proof (IH _ _ Hinv1 Hrest). lia.
Qed.

Lemma commitReducer_size h0 h accLoc acc cl c r h' :
  Heap.accInv h0 h accLoc acc ->
  Heap.readCommit h0 cl = Some c ->
  Heap.commitReducer ticketRegExp accLoc cl h = Some (r, h') ->
  (length h' + length acc =
   length h + length (commitReducer ticketRegExp acc c))%nat.
Proof.
  intros Hinv Hc.
  assert (Heap.readCommit h cl = Some c) as Hc'.
  { destruct Hinv as [Hp _]. by eapply HeapFacts.readCommit_preserved. }
  apply HeapFacts.readCommit_Some in Hc' as (sl & sls & Hcl & Hsl & Hsts).
  unfold Heap.commitReducer.
  unfold Heap.bind at 1. unfold Heap.loadCommit, Heap.bind at 1, Heap.load.
  rewrite Hcl. simpl.
  unfold Heap.bind at 1. unfold Heap.loadArray, Heap.bind at 1, Heap.load.
  rewrite Hsl. simpl.
  unfold Heap.bind at 1. rewrite (HeapFacts.reduceStat_ok _ _ _ _ Hsts).
  fold (shortStat c). unfold Heap.bind.
  destruct (Heap.forEach accLoc (shortStat c)
              (default [] (ticketRegExp (message c))) h)
    as [[[] h1]|] eqn:Hrun; [|done].
  intros [= <- <-].
  pose proof (forEach_size _ _ _ _ _ _ _ Hinv Hrun) as Hsize.
  unfold commitReducer, ticketsMatchedInCommit.
  by destruct (ticketRegExp (message c)).
Qed.

Lemma reduce_size h0 cls cs h accLoc acc r h' :
  Forall2 (fun l c => Heap.readCommit h0 l = Some c) cls cs ->
  Heap.accInv h0 h accLoc acc ->
  Heap.reduce ticketRegExp cls accLoc h = Some (r, h') ->
  (length h' + length acc =
   length h + length (fold_left (commitReducer ticketRegExp) cs acc))%nat.
Proof.
  intros H. revert h acc.
  induction H as [|cl c cls cs Hc _ IH]; intros h acc Hinv; simpl.
  - by intros [= <- <-].
  - destruct (HeapFacts.commitReducer_ok ticketRegExp h0 h accLoc acc cl c
                Hinv Hc) as (h1 & Hrun & Hinv1).
    unfold Heap.bind. rewrite Hrun. intros Hrest.
    pose proof (commitReducer_size _ _ _ _ _ _ _ _ Hinv Hc Hrun).
    pose proof (IH _ _ Hinv1 Hrest). lia.
Qed.

(** The whole run: it returns the location just past the store it was
    given, with the accumulator invariant and the size of the final store. *)
Lemma analyzeCommits_run h cl cs :
  Heap.readCommits h cl = Some cs ->
  exists h',
    Heap.analyzeCommits ticketRegExp cl h = Some (length h, h') /\
    Heap.accInv h h' (length h) (reduceCommits ticketRegExp cs) /\
    length h' = S (length h + length (reduceCommits ticketRegExp cs)).
Proof.
  intros Hcs. unfold Heap.readCommits in Hcs.
  destruct (Heap.readArray h cl) as [cls|] eqn:Hcl; [|done].
  simpl in Hcs. apply mapM_Some in Hcs.
  apply HeapFacts.readArray_Some in Hcl.
  unfold Heap.analyzeCommits.
  unfold Heap.bind at 1. unfold Heap.loadArray, Heap.bind at 1, Heap.load.
  rewrite Hcl. simpl. unfold Heap.bind, Heap.alloc.
  assert (Heap.accInv h (h ++ [Heap.OArray []]) (length h) []) as Hinv0.
  { split; [apply HeapFacts.preserved_alloc, HeapFacts.preserved_refl|].
    split; [done|].
    exists []. split; [by rewrite list_lookup_middle|].
    split; [constructor|]. split; [constructor|apply NoDup_nil_2]. }
  destruct (HeapFacts.reduce_ok ticketRegExp h cls cs _ (length h) [] Hcs Hinv0)
    as (h' & Hrun & Hinv).
  rewrite Hrun. exists h'. split; [done|]. split; [done|].
  pose proof (reduce_size _ _ _ _ _ _ _ _ Hcs Hinv0 Hrun) as Hsize.
  rewrite length_app in Hsize. simpl in Hsize.
  unfold reduceCommits. lia.
Qed.

End Sizes.

End HeapAllocation.

Section StoreProperties.

Variable ticketRegExp : string -> option (list string).

(** X11. On a store that holds the commit sequence, the array the run
    returns and the records in it are objects that were not in the store
    before, pairwise distinct: the result shares no object with the input. *)
Theorem analyzeCommits_allocates_fresh_result
    (h : list Heap.object) (cl : nat) (cs : list Commit) :
  Heap.readCommits h cl = Some cs ->
  exists r h' ls,
    Heap.analyzeCommits ticketRegExp cl h = Some (r, h') /\
    h !! r = None /\
    h' !! r = Some (Heap.OArray ls) /\
    Forall (fun l => h !! l = None) ls /\
    NoDup ls /\
    Heap.readResult h' r = Some (reduceCommits ticketRegExp cs).
Proof.
  intros Hcs.
  destruct (HeapAllocation.analyzeCommits_run ticketRegExp h cl cs Hcs)
    as (h' & Hrun & Hinv & _).
  pose proof (HeapFacts.accInv_readResult _ _ _ _ Hinv) as Hres.
  destruct Hinv as (_ & _ & ls & Harr & _ & Hfresh & Hnd).
  exists (length h), h', ls. split; [done|].
  split; [by apply lookup_ge_None|]. split; [done|].
  split; [|done].
  eapply Forall_impl; [exact Hfresh|]. intros l Hl. by apply lookup_ge_None.
Qed.

(** X12. The run can be repeated: a second run on the store the first one
    left returns another array, with the same entries, and leaves the array
    and the records of the first run as they were. *)
Theorem analyzeCommits_can_be_repeated
    (h : list Heap.object) (cl : nat) (cs : list Commit) :
  Heap.readCommits h cl = Some cs ->
  exists r1 h1 r2 h2,
    Heap.analyzeCommits ticketRegExp cl h = Some (r1, h1) /\
    Heap.analyzeCommits ticketRegExp cl h1 = Some (r2, h2) /\
    r1 <> r2 /\
    Heap.readResult h1 r1 = Some (reduceCommits ticketRegExp cs) /\
    Heap.readResult h2 r1 = Some (reduceCommits ticketRegExp cs) /\
    Heap.readResult h2 r2 = Some (reduceCommits ticketRegExp cs).
Proof.
  intros Hcs.
  destruct (HeapAllocation.analyzeCommits_run ticketRegExp h cl cs Hcs)
    as (h1 & Hrun1 & Hinv1 & Hsize1).
  assert (Heap.readCommits h1 cl = Some cs) as Hcs1.
  { destruct Hinv1 as [Hp _]. by eapply HeapFacts.readCommits_preserved. }
  destruct (HeapAllocation.analyzeCommits_run ticketRegExp h1 cl cs Hcs1)
    as (h2 & Hrun2 & Hinv2 & Hsize2).
  exists (length h), h1, (length h1), h2.
  split; [done|]. split; [done|]. split; [lia|].
  pose proof (HeapFacts.accInv_readResult _ _ _ _ Hinv1) as Hr1.
  split; [done|]. split.
  - destruct Hinv2 as [Hp _]. by eapply HeapAllocation.readResult_preserved.
  - by eapply HeapFacts.accInv_readResult.
Qed.

End StoreProperties.

Lemma analyzeCommits_allocates_fresh_result_witness :
  Heap.readCommits scenarioHeap 6 = Some scenarioCommits /\
  exists r h' ls,
    Heap.analyzeCommits (RegExp.match_ defaultTicketRegExp) 6 scenarioHeap
    = Some (r, h') /\
    scenarioHeap !! r = None /\
    h' !! r = Some (Heap.OArray ls) /\
    Forall (fun l => scenarioHeap !! l = None) ls /\
    NoDup ls /\
    Heap.readResult h' r
    = Some (reduceCommits (RegExp.match_ defaultTicketRegExp) scenarioCommits).
Proof.
  split; [reflexivity|].
  apply (analyzeCommits_allocates_fresh_result
           (RegExp.match_ defaultTicketRegExp) scenarioHeap 6 scenarioCommits).
  reflexivity.
Defined.

Lemma analyzeCommits_can_be_repeated_witness :
  Heap.readCommits scenarioHeap 6 = Some scenarioCommits /\
  exists r1 h1 r2 h2,
    Heap.analyzeCommits (RegExp.match_ defaultTicketRegExp) 6 scenarioHeap
    = Some (r1, h1) /\
    Heap.analyzeCommits (RegExp.match_ defaultTicketRegExp) 6 h1
    = Some (r2, h2) /\
    r1 <> r2 /\
    Heap.readResult h1 r1
    = Some (reduceCommits (RegExp.match_ defaultTicketRegExp) scenarioCommits) /\
    Heap.readResult h2 r1
    = Some (reduceCommits (RegExp.match_ defaultTicketRegExp) scenarioCommits) /\
    Heap.readResult h2 r2
    = Some (reduceCommits (RegExp.match_ defaultTicketRegExp) scenarioCommits).
Proof.
  split; [reflexivity|].
  apply (analyzeCommits_can_be_repeated
           (RegExp.match_ defaultTicketRegExp) scenarioHeap 6 scenarioCommits).
  reflexivity.
Defined.

(** ** The command line *)

Section CliProperties.

Variable exec : string -> (string * string) + string.
Variable parseGitNumstat : string -> list Commit + string.
Variable isDirectory : string -> option bool.
Variable pathJoin : string -> string -> string.
Variable writeRecords : string -> list TicketStat -> option string.
Variable newRegExp : string -> option (string -> option (list string)).
Variable packageVersion : string.
Variable underline : string -> string.

Abbreviation run :=
  (Cli.run exec parseGitNumstat isDirectory pathJoin writeRecords newRegExp
     packageVersion underline).


Lemma usage_only_prints : forallb Cli.isConsoleLog (Cli.usage underline) = true.
Proof. reflexivity. Qed.


(** X14. With a version or help option set, or with a number of
    positional arguments other than two, the program only prints: it runs
    no command, looks at no path, writes no file and does not exit with an
    error. *)
Theorem run_only_prints_without_two_arguments (argv : Cli.Argv) :
  Cli.truthy (Cli.opt_v argv) || Cli.truthy (Cli.opt_version argv)
  || Cli.truthy (Cli.opt_h argv) || Cli.truthy (Cli.opt_help argv)
  || negb (length (Cli.positional argv) =? 2)%nat = true ->
  forallb Cli.isConsoleLog (run argv) = true.
Proof.
  unfold Cli.run. intros H.
  destruct (Cli.truthy (Cli.opt_v argv) || Cli.truthy (Cli.opt_version argv))
    eqn:Hv; [done|].
  simpl orb in H.
  change (length Cli.requiredArgNames) with 2%nat.
  rewrite H. apply usage_only_prints.
Qed.

(** X15. The program exits only with status 1, only as its last effect
    and right after printing the error; a file written before that is one
    whose writing failed itself, so a failure of git, of the parser or of
    the constructor of the regular expression leaves no file. *)
Theorem run_exits_last_with_status_1 (argv : Cli.Argv) (code : Z) :
  In (Cli.ProcessExit code) (run argv) ->
  code = 1 /\
  exists before e,
    run argv = (before ++ [Cli.ConsoleError e; Cli.ProcessExit 1])%list /\
    Forall (Cli.beforeExit writeRecords) before.
Proof.
  unfold Cli.run.
  destruct (Cli.truthy (Cli.opt_v argv) || Cli.truthy (Cli.opt_version argv));
    [simpl; by intros [|[]]|].
  destruct (_ || _).
  { intros H. exfalso.
    pose proof usage_only_prints as Hu. rewrite forallb_forall in Hu.
    by specialize (Hu _ H). }
  destruct (Cli.positional argv) as [|repoPath [|outputPath [|]]]; try done.
  unfold Cli.pipeline, Cli.getLog, Cli.resolveOutputPath,
    Cli.saveStatisticsAsCsv, Cli.failWith, analyzeCommitsWith.
  set (cmd := Cli.ExecCommand (Cli.gitCommand repoPath)).
  assert (forall e,
    exists before e',
      ([cmd] ++ [Cli.ConsoleError e; Cli.ProcessExit 1])%list =
      (before ++ [Cli.ConsoleError e'; Cli.ProcessExit 1])%list /\
      Forall (Cli.beforeExit writeRecords) before) as Hearly.
  { intros e. exists [cmd], e. split; [done|]. by repeat constructor. }
  destruct (exec (Cli.gitCommand repoPath)) as [[gitLog stderr]|e].
  2: { intros H. split; [unfold cmd in H; simpl in H; intuition congruence|].
       apply Hearly. }
  destruct (String.length stderr =? 0)%nat.
  2: { intros H. split; [unfold cmd in H; simpl in H; intuition congruence|].
       apply Hearly. }
  destruct (parseGitNumstat gitLog) as [commits|e].
  2: { intros H. split; [unfold cmd in H; simpl in H; intuition congruence|].
       apply Hearly. }
  destruct (newRegExp (Cli.ticketPattern argv)) as [ticketRegExp|].
  2: { intros H. split; [unfold cmd in H; simpl in H; intuition congruence|].
       apply Hearly. }
  set (statistics := reduceCommits ticketRegExp commits).
  set (path := match isDirectory outputPath with
               | Some true => pathJoin outputPath Cli.defaultFileName
               | Some false => outputPath
               | None => outputPath
               end).
  destruct (writeRecords path statistics) as [e|] eqn:Hw; simpl.
  - intros H. split; [unfold cmd in H; intuition congruence|].
    exists [cmd; Cli.StatPath outputPath; Cli.WriteCsv path statistics],
           (Cli.Thrown e).
    split; [done|]. repeat constructor. simpl. by rewrite Hw.
  - unfold cmd. intuition congruence.
Qed.

End CliProperties.

Example sample_run :
  sampleRun (sampleArgv ["repo"; "out"]) =
  [ Cli.ExecCommand "git -C repo log --numstat";
    Cli.StatPath "out";
    Cli.WriteCsv "out/gitticketstat.csv"
      [mkTicketStat "PROJ-1" 6 2 8 2; mkTicketStat "PROJ-2" 1 0 1 1] ].
Proof. reflexivity. Qed.


Lemma run_only_prints_without_two_arguments_witness :
  length (Cli.positional (sampleArgv ["repo"])) = 1%nat /\
  forallb Cli.isConsoleLog (sampleRun (sampleArgv ["repo"])) = true.
Proof.
  split; [reflexivity|].
  apply (run_only_prints_without_two_arguments sampleExec sampleParse
           sampleIsDirectory samplePathJoin sampleWrite sampleRegExp "1.0.0"
           (fun name => name) (sampleArgv ["repo"])).
  reflexivity.
Defined.

Lemma run_exits_last_with_status_1_witness :
  In (Cli.ProcessExit 1) (sampleRun (sampleArgv ["elsewhere"; "out"])) /\
  exists before e,
    sampleRun (sampleArgv ["elsewhere"; "out"]) =
    (before ++ [Cli.ConsoleError e; Cli.ProcessExit 1])%list /\
    Forall (Cli.beforeExit sampleWrite) before.
Proof.
  assert (In (Cli.ProcessExit 1) (sampleRun (sampleArgv ["elsewhere"; "out"])))
    as H.
  { right. right. left. reflexivity. }
  split; [exact H|].
  exact (proj2
    (run_exits_last_with_status_1 sampleExec sampleParse sampleIsDirectory
       samplePathJoin sampleWrite sampleRegExp "1.0.0" (fun name => name)
       (sampleArgv ["elsewhere"; "out"]) 1 H)).
Defined.
